(** * datascience.util: percentile, plot_normal_cdf, table_apply, minimize

    A shallow embedding of [src/datascience/util.py] and the properties of
    its four helpers.

    Numbers.  Python's [int] and (finite) [float] values are read as the
    rational numbers they denote: [Q] with [Qle_bool] for the comparisons
    and [Qceiling] for [math.ceil].  Two numbers that Python's [==]
    identifies (such as [1] and [1.0]) may be different objects; here they
    are different fractions related by [Qeq].  Arithmetic on floats rounds:
    [Binary64] gives the operations of IEEE 754 binary64 on these
    rationals, and the rank of [percentile] and the samples of [np.arange]
    are computed with them ([PercentileFloat], [NormalCdf]).  [Percentile]
    is the same function with the product on line 40 not rounded.

    Objects.  [PercentileHeap] is [percentile] on references into a heap of
    lists, arrays and function objects, for the statements about the
    function that [percentile(p)] returns.

    Exceptions.  A call either returns a value or raises; [result] is the
    error monad that threads this through the functions. *)

From Stdlib Require Import ZArith QArith Qround Qpower List String Ascii Bool Lia Lqa.
From Stdlib Require Import DecimalString.
From Stdlib Require Import Floats.SpecFloat.
From Stdlib Require Import Permutation Sorted.
Import ListNotations.

Set Warnings "-register-all".
Local Open Scope string_scope.

(** ** Exceptions and results *)

Inductive exn : Type :=
| AssertionError (msg : string)
| IndexError (msg : string)
| ValueError (msg : string)
| TypeError (msg : string)
| OtherError (name msg : string).

Inductive result (A : Type) : Type :=
| Return (a : A)
| Raise (e : exn).
Arguments Return {A} a.
Arguments Raise {A} e.

Definition bind {A B : Type} (r : result A) (k : A -> result B) : result B :=
  match r with
  | Return a => k a
  | Raise e => Raise e
  end.

Notation "x <- r ;; k" := (bind r (fun x => k))
  (at level 61, r at next level, right associativity).

(** [assert cond, msg] *)
Definition py_assert (cond : bool) (msg : string) : result unit :=
  if cond then Return tt else Raise (AssertionError msg).

(** [for x in xs: s = body(s, x)] *)
Definition for_each {S A : Type} (body : S -> A -> result S)
  : list A -> S -> result S :=
  fix loop (xs : list A) (s : S) : result S :=
    match xs with
    | [] => Return s
    | x :: xs' => s' <- body s x ;; loop xs' s'
    end.

(** [[f(x) for x in xs]]: left to right, the first exception ends it. *)
Definition comprehension {A B : Type} (f : A -> result B)
  : list A -> result (list B) :=
  fix each (xs : list A) : result (list B) :=
    match xs with
    | [] => Return []
    | x :: xs' => y <- f x ;; ys <- each xs' ;; Return (y :: ys)
    end.

(** ** Binary64 arithmetic

    A Python [float] is an IEEE 754 binary64 number.  Its finite values are
    rationals, and an operation on them gives the exact result rounded to
    the nearest binary64 number, ties to the even mantissa: [round] is
    that rounding, for results below [2^1024] in magnitude (overflow to
    infinity is not reached by the values used below). *)

Module Binary64.

Local Open Scope Q_scope.

Definition pow2 (e : Z) : Q := 2 ^ e.

(** The integer [k] with [2^k <= x < 2^(k+1)], for [x > 0]. *)
Definition ilog2 (x : Q) : Z :=
  let d := (Z.log2 (Qnum x) - Z.log2 (Zpos (Qden x)))%Z in
  if Qle_bool (pow2 d) x then d else (d - 1)%Z.

(** The nearest integer, ties to even. *)
Definition rne (y : Q) : Z :=
  let f := Qfloor y in
  match Qcompare (y - inject_Z f) (1 # 2) with
  | Lt => f
  | Gt => (f + 1)%Z
  | Eq => if Z.even f then f else (f + 1)%Z
  end.

(** The exponent of the last of the 53 bits of [a > 0]; it is -1074 for
    the subnormal numbers. *)
Definition ulp_exp (a : Q) : Z := Z.max (-1074) (ilog2 a - 52).

Definition round_pos (a : Q) : Q :=
  let e := ulp_exp a in Qred (inject_Z (rne (a / pow2 e)) * pow2 e).

Definition round (x : Q) : Q :=
  match Qnum x with
  | Z0 => 0
  | Zpos _ => round_pos x
  | Zneg _ => - round_pos (- x)
  end.

(** [x + y], [x - y], [x * y], [x / y] on floats; an [int] operand is
    converted first ([of_int], exact below [2^53]), and [int / int] is the
    rounded quotient. *)
Definition fadd (x y : Q) : Q := round (x + y).
Definition fsub (x y : Q) : Q := round (x - y).
Definition fmul (x y : Q) : Q := round (x * y).
Definition fdiv (x y : Q) : Q := round (x / y).
Definition of_int (n : Z) : Q := round (inject_Z n).

(** A float literal such as [74.9] is the float nearest the decimal. *)
Definition literal (q : Q) : Q := round q.

(** The value of a finite float of the standard library's specification
    of IEEE 754, and the float of an integer there; the operations above
    are compared with it below. *)
Definition SF2Q (f : spec_float) : Q :=
  match f with
  | S754_finite s m e =>
      Qred ((if s then -1 else 1) * inject_Z (Zpos m) * pow2 e)
  | _ => 0
  end.

Definition Z2SF (z : Z) : spec_float := binary_normalize 53 1024 z 0 false.

End Binary64.

(** ** Python built-ins on lists of numbers *)

Module Builtins.

Local Open Scope Q_scope.

(** [x < y] *)
Definition Qltb (x y : Q) : bool := negb (Qle_bool y x).

(** [len(l)], a Python int *)
Definition len {A : Type} (l : list A) : Z := Z.of_nat (List.length l).

(** [min(l)]: the first of the smallest items ([item < best] replaces). *)
Definition py_min (l : list Q) : result Q :=
  match l with
  | [] => Raise (ValueError "min() arg is an empty sequence")
  | x :: l' =>
      Return (fold_left (fun best item => if Qltb item best then item else best) l' x)
  end.

(** [max(l)]: the first of the largest items ([item > best] replaces). *)
Definition py_max (l : list Q) : result Q :=
  match l with
  | [] => Raise (ValueError "max() arg is an empty sequence")
  | x :: l' =>
      Return (fold_left (fun best item => if Qltb best item then item else best) l' x)
  end.

(** [sorted(l)]: a new list, ascending, stable; comparisons are [<] only.
    An item goes in front of the first item of the sorted rest that is not
    smaller than it, so equal items keep their order. *)
Fixpoint insert (x : Q) (l : list Q) : list Q :=
  match l with
  | [] => [x]
  | y :: l' => if Qltb y x then y :: insert x l' else x :: y :: l'
  end.

Fixpoint sorted (l : list Q) : list Q :=
  match l with
  | [] => []
  | x :: l' => insert x (sorted l')
  end.

(** [l[i]]: a negative index counts from the end. *)
Definition py_getitem {A : Type} (l : list A) (i : Z) : result A :=
  let n := len l in
  let j := (if i <? 0 then i + n else i)%Z in
  if ((j <? 0) || (n <=? j))%Z
  then Raise (IndexError "list index out of range")
  else match nth_error l (Z.to_nat j) with
       | Some a => Return a
       | None => Raise (IndexError "list index out of range")
       end.

End Builtins.

(** ** percentile *)

Module Percentile.

Import Builtins.
Local Open Scope Q_scope.

(** The argument [p]: a number, or an iterable of such arguments. *)
Inductive parg : Type :=
| PNum (q : Q)
| PSeq (ps : list parg).

(** What [percentile] returns: a number, an array of results, or the
    function [lambda arr: percentile(p, arr)], a closure over [p]. *)
Inductive pyval : Type :=
| VNum (q : Q)
| VArray (vs : list pyval)
| VLambda (p : parg).

(** Lines 37-41, [p] a number and [arr] given. *)
Definition percentile_num (p : Q) (arr : list Q) : result Q :=
  if Qeq_bool p 0 then py_min arr
  else
    _ <- py_assert (Qltb 0 p && Qle_bool p 100) "Percentile requires a percent" ;;
    let i := (p / 100) * inject_Z (len arr) in
    py_getitem (sorted arr) (Qceiling i - 1).

(** Lines 35-41, [arr] given. *)
Fixpoint percentile_arr (p : parg) (arr : list Q) : result pyval :=
  match p with
  | PSeq ps =>
      vs <- comprehension (fun x => percentile_arr x arr) ps ;;
      Return (VArray vs)
  | PNum q => v <- percentile_num q arr ;; Return (VNum v)
  end.

(** [percentile(p, arr=None)] *)
Definition percentile (p : parg) (arr : option (list Q)) : result pyval :=
  match arr with
  | None => Return (VLambda p)
  | Some a => percentile_arr p a
  end.

(** Calling a value: only the closure is callable, and its body is
    [percentile(p, arr)] with the captured [p]. *)
Definition call (g : pyval) (arr : option (list Q)) : result pyval :=
  match g with
  | VLambda p => percentile p arr
  | _ => Raise (TypeError "object is not callable")
  end.

(** How many items of [arr] are at most [v]. *)
Definition count_le (v : Q) (arr : list Q) : nat :=
  List.length (filter (fun y => Qle_bool y v) arr).

End Percentile.


(** ** percentile in binary64

    Line 40 evaluated as CPython evaluates it: [p/100] is a float
    division, the product with [len(arr)] a float multiplication, each
    rounded.  Everything else is as in [Percentile]. *)

Module PercentileFloat.

Import Builtins Binary64.
Export Percentile.
Local Open Scope Q_scope.

(** [math.ceil((p/100) * len(arr))] *)
Definition rank (p : Q) (n : Z) : Z := Qceiling (fmul (fdiv p 100) (of_int n)).

(** Lines 37-41, [p] a number and [arr] given. *)
Definition percentile_num (p : Q) (arr : list Q) : result Q :=
  if Qeq_bool p 0 then py_min arr
  else
    _ <- py_assert (Qltb 0 p && Qle_bool p 100) "Percentile requires a percent" ;;
    let i := fmul (fdiv p 100) (of_int (len arr)) in
    py_getitem (sorted arr) (Qceiling i - 1).

(** Lines 35-41, [arr] given. *)
Fixpoint percentile_arr (p : parg) (arr : list Q) : result pyval :=
  match p with
  | PSeq ps =>
      vs <- comprehension (fun x => percentile_arr x arr) ps ;;
      Return (VArray vs)
  | PNum q => v <- percentile_num q arr ;; Return (VNum v)
  end.

(** [percentile(p, arr=None)] *)
Definition percentile (p : parg) (arr : option (list Q)) : result pyval :=
  match arr with
  | None => Return (VLambda p)
  | Some a => percentile_arr p a
  end.


End PercentileFloat.

(** ** percentile with its objects

    [percentile] on references to objects in a heap, as Python passes
    them: [p] and [arr] may be lists that the caller can still change, the
    lambda on line 34 makes a function object holding a reference to [p],
    and [np.array] on line 36 makes an array object.  A call takes the
    heap and gives it back with its result, so what a call writes, and
    what a later call can see of an earlier one, is there to be checked.

    Numbers are immutable and stand for themselves.  [arr] is a sequence of
    numbers, as the specification has it: an item that is not a number
    raises [TypeError].  The sorted copy on line 41 is dropped when the
    call returns and is not allocated.  [depth] is the number of nested
    calls the interpreter allows before it raises [RecursionError]. *)

Module PercentileHeap.

Import Builtins Binary64.
Export Percentile.
Local Open Scope Q_scope.

Definition loc : Type := nat.

(** What a variable, an argument or an item of a list holds. *)
Inductive val : Type :=
| HNone
| HNum (q : Q)
| HRef (l : loc).

Arguments HRef l%_nat.

Inductive object : Type :=
| OList (items : list val)
| OArray (items : list val)
| OLambda (p : val).

Definition heap : Type := list object.

Definition deref (h : heap) (l : loc) : option object := nth_error h l.

Arguments deref h l%_nat.

(** A new object goes to the end of the heap; its place is its reference. *)
Definition alloc (o : object) (h : heap) : loc * heap :=
  (List.length h, (h ++ [o])%list).

(** [hasattr(v, '__iter__')], and the items when it has. *)
Definition iter (h : heap) (v : val) : option (list val) :=
  match v with
  | HRef l =>
      match deref h l with
      | Some (OList items) | Some (OArray items) => Some items
      | _ => None
      end
  | _ => None
  end.

(** [type(v).__name__] *)
Definition type_name (h : heap) (v : val) : string :=
  match v with
  | HNone => "NoneType"
  | HNum _ => "float"
  | HRef l =>
      match deref h l with
      | Some (OList _) => "list"
      | Some (OArray _) => "numpy.ndarray"
      | Some (OLambda _) => "function"
      | None => "object"
      end
  end.

Definition number (v : val) : result Q :=
  match v with
  | HNum q => Return q
  | _ => Raise (TypeError "not a real number")
  end.

(** The items of [arr], for [min], [len] and [sorted]. *)
Definition numbers (h : heap) (arr : val) : result (list Q) :=
  match iter h arr with
  | Some items => comprehension number items
  | None => Raise (TypeError "object is not iterable")
  end.

Definition RecursionError : exn :=
  OtherError "RecursionError" "maximum recursion depth exceeded".

(** [[f(x) for x in xs]], each call with the heap the one before left. *)
Definition comprehension_in {A B : Type} (f : A -> heap -> result B * heap)
  : list A -> heap -> result (list B) * heap :=
  fix each (xs : list A) (h : heap) : result (list B) * heap :=
    match xs with
    | [] => (Return [], h)
    | x :: xs' =>
        match f x h with
        | (Return y, h1) =>
            match each xs' h1 with
            | (Return ys, h2) => (Return (y :: ys), h2)
            | (Raise e, h2) => (Raise e, h2)
            end
        | (Raise e, h1) => (Raise e, h1)
        end
    end.

(** [percentile(p, arr=None)], lines 33-41. *)
Fixpoint percentile (depth : nat) (p arr : val) (h : heap)
  : result val * heap :=
  match depth with
  | O => (Raise RecursionError, h)
  | S depth =>
      match arr with
      | HNone =>
          let (g, h') := alloc (OLambda p) h in (Return (HRef g), h')
      | _ =>
          match iter h p with
          | Some items =>
              match comprehension_in (fun x => percentile depth x arr) items h with
              | (Return vs, h1) =>
                  let (a, h2) := alloc (OArray vs) h1 in (Return (HRef a), h2)
              | (Raise e, h1) => (Raise e, h1)
              end
          | None =>
              match p with
              | HNum q =>
                  if Qeq_bool q 0
                  then (arr <- numbers h arr ;;
                        v <- py_min arr ;; Return (HNum v), h)
                  else (_ <- py_assert (Qltb 0 q && Qle_bool q 100)
                                       "Percentile requires a percent" ;;
                        arr <- numbers h arr ;;
                        let i := fmul (fdiv q 100) (of_int (len arr)) in
                        v <- py_getitem (sorted arr) (Qceiling i - 1) ;;
                        Return (HNum v), h)
              | _ =>
                  (Raise (TypeError ("'<' not supported between instances of 'int' and '"
                                     ++ type_name h p ++ "'")), h)
              end
          end
      end
  end.

Arguments percentile depth%_nat p arr h.

(** [g(arr)]: [g] must be a function; the one line 34 makes has the body
    [percentile(p, arr)], with the [p] it holds. *)
Definition call (depth : nat) (g arr : val) (h : heap) : result val * heap :=
  match depth with
  | O => (Raise RecursionError, h)
  | S depth =>
      match g with
      | HRef l =>
          match deref h l with
          | Some (OLambda p) => percentile depth p arr h
          | _ => (Raise (TypeError "object is not callable"), h)
          end
      | _ => (Raise (TypeError "object is not callable"), h)
      end
  end.

Arguments call depth%_nat g arr h.

(** [h'] is [h] with new objects: every object of [h] is in [h'] as it was. *)
Definition extends (h h' : heap) : Prop := exists new, h' = (h ++ new)%list.

(** What the objects hold, read out of the heap: [p] as a number or a
    sequence of such, [arr] as the list of its numbers, and a result as a
    number, an array or a function. *)
Inductive reads_p (h : heap) : val -> parg -> Prop :=
| reads_PNum (q : Q) : reads_p h (HNum q) (PNum q)
| reads_PSeq (v : val) (items : list val) (ps : list parg) :
    iter h v = Some items ->
    Forall2 (reads_p h) items ps ->
    reads_p h v (PSeq ps).

Definition reads_arr (h : heap) (arr : val) (a : option (list Q)) : Prop :=
  match a with
  | None => arr = HNone
  | Some a => iter h arr = Some (map HNum a)
  end.

Inductive reads_val (h : heap) : val -> pyval -> Prop :=
| reads_VNum (q : Q) : reads_val h (HNum q) (VNum q)
| reads_VArray (l : loc) (items : list val) (vs : list pyval) :
    deref h l = Some (OArray items) ->
    Forall2 (reads_val h) items vs ->
    reads_val h (HRef l) (VArray vs)
| reads_VLambda (l : loc) (p : val) (P : parg) :
    deref h l = Some (OLambda p) ->
    reads_p h p P ->
    reads_val h (HRef l) (VLambda P).

Definition reads_result (h : heap) (r : result val) (R : result pyval) : Prop :=
  match r, R with
  | Return v, Return V => reads_val h v V
  | Raise e, Raise e' => e = e'
  | _, _ => False
  end.

(** How deep the sequences of [p] are nested: the calls [percentile(p, arr)]
    nests. *)
Fixpoint nesting (P : parg) : nat :=
  match P with
  | PNum _ => 1
  | PSeq ps => S (fold_right (fun x m => Nat.max (nesting x) m) 0%nat ps)
  end.

(** The call [percentile(p, arr)] gives what the numbers in [p] and in
    [arr] make it, in every heap where [p] holds [P] and [arr] holds [a]. *)
Definition refines (arr : val) (a : list Q) (P : parg) : Prop :=
  forall depth p h,
    reads_p h p P -> reads_arr h arr (Some a) -> (nesting P <= depth)%nat ->
    exists r h',
      percentile depth p arr h = (r, h') /\ extends h h' /\
      reads_result h' r (PercentileFloat.percentile_arr P a).

End PercentileHeap.

(** ** plot_normal_cdf *)

Module NormalCdf.

Import Builtins Binary64.
Local Open Scope Q_scope.

(** [np.arange(start, stop, step)] on floats: the length is the ceiling of
    the float quotient [(stop - start) / step] (0 or 1 when a quotient of a
    non-zero difference rounds to zero), the first sample is [start], the
    second [start + step], and the sample at position [i >= 2] is
    [start + i * delta] with [delta] the float difference of the first two;
    every operation is rounded. *)
Definition arange_length (start stop step : Q) : Z :=
  let delta := fsub stop start in
  let tmp_len := fdiv delta step in
  if Qeq_bool tmp_len 0 && negb (Qeq_bool delta 0)
  then (if Qltb (delta / step) 0 then 0 else 1)%Z
  else Qceiling tmp_len.

Definition arange (start stop step : Q) : list Q :=
  let next := fadd start step in
  let delta := fsub next start in
  map (fun i : nat =>
         match i with
         | O => start
         | S O => next
         | _ => fadd start (fmul (of_int (Z.of_nat i)) delta)
         end)
      (seq 0 (Z.to_nat (arange_length start stop step))).

(** [stats.norm.pdf(xs, loc=mean, scale=sd)]: the density is not computed,
    a curve is the samples and the parameters it is drawn from. *)
Record curve : Type := norm_pdf { xs : list Q; loc : Q; scale : Q }.

(** A bound as the title shows it: the number, or the text for infinity. *)
Inductive bound_label : Type :=
| Shown (q : Q)
| Text (s : string).

(** The calls made on [matplotlib.pyplot], in order. *)
Inductive plt_call : Type :=
| plot (x : list Q) (y : curve) (color : string) (lw : Q)
| fill_between (x : list Q) (y : curve) (color : string)
| ylim (bottom : Q) (pdf_at pdf_loc pdf_scale factor : Q)
| xlabel (s : string)
| ylabel (s : string) (rotation : Q)
| title (mean sd : Q) (llabel rlabel : bound_label) (fontsize : Q)
| show.

Definition is_not_None {A : Type} (o : option A) : bool :=
  match o with Some _ => true | None => false end.

(** [plot_normal_cdf(rbound=None, lbound=None, mean=0, sd=1)]; [title]
    holds the four values the format string is filled with. *)
Definition plot_normal_cdf (rbound lbound : option Q) (mean sd : Q)
  : list plt_call :=
  let shade := is_not_None rbound || is_not_None lbound in
  let shade_left := is_not_None rbound && is_not_None lbound in
  let inf := fmul 3.5 sd in
  let step := literal 0.1 in
  let '(rbound, rlabel) :=
    match rbound with
    | None => (fadd inf mean, Text "$\infty$")
    | Some r => (r, Shown r)
    end in
  let '(lbound, llabel) :=
    match lbound with
    | None => (fadd (- inf) mean, Text "-$\infty$")
    | Some l => (l, Shown l)
    end in
  let pdf_range := arange (fadd (- inf) mean) (fadd inf mean) step in
  let cdf_range := arange lbound (fadd rbound step) step in
  [plot pdf_range (norm_pdf pdf_range mean sd) "k" 1]
  ++ (if shade
      then [fill_between cdf_range (norm_pdf cdf_range mean sd) "gold"]
      else [])
  ++ (if shade_left
      then let cdf_range := arange (fadd (- inf) mean) (fadd lbound step) step in
           [fill_between cdf_range (norm_pdf cdf_range mean sd) "darkblue"]
      else [])
  ++ [ylim 0 0 0 sd 1.25;
      xlabel "z";
      ylabel "$\phi$(z)" 90;
      title mean sd llabel rlabel 16;
      show].

(** The old name. *)
Definition plot_cdf_area := plot_normal_cdf.

(** The filled regions of a figure: the sample points of each
    [fill_between], with its colour, in drawing order. *)
Definition filled_regions (calls : list plt_call) : list (list Q * string) :=
  flat_map (fun c => match c with
                     | fill_between x _ color => [(x, color)]
                     | _ => []
                     end) calls.



End NormalCdf.

(** ** table_apply *)

Module TableApply.

(** Column and row labels: names, or positions such as the [0] that
    [pd.DataFrame(series)] gives its only column. *)
Inductive label : Type :=
| Name (s : string)
| Pos (n : nat).

Definition label_eqb (a b : label) : bool :=
  match a, b with
  | Name s, Name t => String.eqb s t
  | Pos n, Pos m => Nat.eqb n m
  | _, _ => false
  end.

(** The values in cells, and what [func] takes and returns: numbers,
    text, a pandas Series ([Seq]: a column handed to [func], or a Series
    it returns) and a plain list ([Lst]).  A Series is given by its values
    in row order; one that [func] returns is over the rows of the column it
    was made from, as [col * 2] or [col.cumsum()] are, so that the results
    line up row by row when pandas puts them in a frame. *)
Inductive value : Type :=
| Num (q : Q)
| Str (s : string)
| Seq (vs : list value)
| Lst (vs : list value).

(** pandas' [is_sequence]: something to iterate with a length, not text. *)
Definition is_sequence (v : value) : bool :=
  match v with Seq _ | Lst _ => true | _ => false end.

(** [isinstance(v, Series)] *)
Definition is_Series (v : value) : bool :=
  match v with Seq _ => true | _ => false end.

Definition items (v : value) : list value :=
  match v with Seq vs | Lst vs => vs | _ => [] end.

Definition pyfunc : Type := value -> result value.

(** *** pandas *)

Record DataFrame : Type :=
  mkDataFrame { index : list label; columns : list (label * list value) }.

Record Series : Type :=
  mkSeries { s_index : list label; s_values : list value }.

Inductive pandas_obj : Type :=
| Frame (df : DataFrame)
| Ser (s : Series).

Definition RangeIndex (n : nat) : list label := map Pos (seq 0 n).

(** [df.columns] *)
Definition column_labels (df : DataFrame) : list label := map fst (columns df).

(** [i in df.columns] *)
Definition contains (labels : list label) (i : label) : bool :=
  existsb (label_eqb i) labels.

(** [df[col]] for a column that is there. *)
Definition getitem (df : DataFrame) (col : label) : result (list value) :=
  match find (fun c => label_eqb col (fst c)) (columns df) with
  | Some c => Return (snd c)
  | None => Raise (OtherError "KeyError" "")
  end.

(** [df[col] = vals] for a column that is there: it keeps its place. *)
Definition setitem (df : DataFrame) (col : label) (vals : list value)
  : DataFrame :=
  mkDataFrame (index df)
    (map (fun c => if label_eqb col (fst c) then (fst c, vals) else c)
         (columns df)).

(** [series.apply(func)]: [func] on each value. *)
Definition Series_apply (func : pyfunc) (vals : list value)
  : result (list value) :=
  comprehension func vals.

(** The frame made of the results of [func] when the first is a sequence:
    sequences of one length are the columns, single values fill a column. *)
Definition broadcast (n : nat) (v : value) : option (list value) :=
  match v with
  | Seq vs | Lst vs => if Nat.eqb (List.length vs) n then Some vs else None
  | _ => Some (repeat v n)
  end.

Fixpoint frame_columns (n : nat) (results : list (label * value))
  : option (list (label * list value)) :=
  match results with
  | [] => Some []
  | (c, v) :: rest =>
      match broadcast n v, frame_columns n rest with
      | Some vs, Some cols => Some ((c, vs) :: cols)
      | _, _ => None
      end
  end.

(** [Series(r, index=labels)] for a result [r] that is not a Series: a
    single value fills the series; a list gives the values and must have
    one item for each label. *)
Definition Series_of (r : value) (labels : list label) : result Series :=
  match r with
  | Lst vs =>
      if Nat.eqb (List.length vs) (List.length labels)
      then Return (mkSeries labels vs)
      else Raise (ValueError
                    ("Length of values ("
                     ++ NilEmpty.string_of_uint (Nat.to_uint (List.length vs))
                     ++ ") does not match length of index ("
                     ++ NilEmpty.string_of_uint (Nat.to_uint (List.length labels))
                     ++ ")"))
  | _ => Return (mkSeries labels (map (fun _ => r) labels))
  end.

(** [df.apply(func)]: [func] on each column.

    A frame with no column or no row takes pandas' path for empty frames:
    [func] is tried on an empty Series; if that raises, or returns a
    Series, the frame is returned as it is; otherwise the result is the
    series of that value over the column labels (the empty series when
    there is no column).  Older versions of pandas fill this series with
    NaN instead; no statement below depends on its values.

    Otherwise [func] is called on every column, in order.  When the first
    result is a sequence the results are the columns of a frame (a series
    of the results if they do not fit one); otherwise they are a series
    over the column labels. *)
Definition DataFrame_apply (func : pyfunc) (df : DataFrame)
  : result pandas_obj :=
  match columns df, index df with
  | [], _ | _, [] =>
      match func (Seq []) with
      | Return r =>
          if is_Series r then Return (Frame df)
          else match columns df with
               | [] => Return (Ser (mkSeries [] []))
               | _ => s <- Series_of r (column_labels df) ;; Return (Ser s)
               end
      | Raise _ => Return (Frame df)
      end
  | _, _ =>
      results <- comprehension
                   (fun c => r <- func (Seq (snd c)) ;; Return (fst c, r))
                   (columns df) ;;
      let as_series := Ser (mkSeries (map fst results) (map snd results)) in
      match results with
      | (_, r0) :: _ =>
          if is_sequence r0
          then
            let n := List.length (items r0) in
            match frame_columns n results with
            | Some cols =>
                Return (Frame (mkDataFrame
                                 (if Nat.eqb n (List.length (index df))
                                  then index df else RangeIndex n)
                                 cols))
            | None => Return as_series
            end
          else Return as_series
      | [] => Return as_series
      end
  end.

(** [pd.DataFrame(series)]: one column, labelled 0, over the series' index. *)
Definition DataFrame_of_Series (s : Series) : DataFrame :=
  mkDataFrame (s_index s) [(Pos 0, s_values s)].

(** [df.T]: the row labels become the column labels; the column of the
    [k]-th row label holds the [k]-th value of every column. *)
Definition transpose (df : DataFrame) : DataFrame :=
  mkDataFrame (column_labels df)
    (map (fun kr : nat * label =>
            (snd kr,
             flat_map (fun c => match nth_error (snd c) (fst kr) with
                                | Some v => [v]
                                | None => []
                                end) (columns df)))
         (combine (seq 0 (List.length (index df))) (index df))).

(** *** numpy and str *)

(** [subset] as passed: one label or a list of them. *)
Inductive subset_arg : Type :=
| One (c : label)
| Many (cs : list label).

Definition atleast_1d (s : subset_arg) : list label :=
  match s with
  | One c => [c]
  | Many cs => cs
  end.

(** [any(l)] *)
Definition any (l : list bool) : bool := existsb (fun b => b) l.

(** [np.where(mask)[0]]: the positions that hold [True]. *)
Definition np_where (mask : list bool) : list nat :=
  flat_map (fun kb : nat * bool => if snd kb then [fst kb] else [])
           (combine (seq 0 (List.length mask)) mask).

(** [repr] of a [str]: single quotes, or double quotes when the text has a
    single quote and no double quote; backslash, the quote and control
    characters are escaped. *)
Definition hex_digit (n : N) : ascii :=
  match n with
  | 0 => "0" | 1 => "1" | 2 => "2" | 3 => "3" | 4 => "4" | 5 => "5"
  | 6 => "6" | 7 => "7" | 8 => "8" | 9 => "9" | 10 => "a" | 11 => "b"
  | 12 => "c" | 13 => "d" | 14 => "e" | _ => "f"
  end%N%char.

Definition backslash : ascii := ascii_of_N 92.
Definition squote : ascii := ascii_of_N 39.
Definition dquote : ascii := ascii_of_N 34.

Definition has_char (c : ascii) (s : string) : bool :=
  existsb (Ascii.eqb c) (list_ascii_of_string s).

Definition escaped (c : ascii) : string := String backslash (String c "").

Definition repr_char (quote c : ascii) : string :=
  let n := N_of_ascii c in
  if Ascii.eqb c backslash || Ascii.eqb c quote then escaped c
  else if N.eqb n 10 then escaped "n"
  else if N.eqb n 13 then escaped "r"
  else if N.eqb n 9 then escaped "t"
  else if N.ltb n 32 || N.eqb n 127
       then escaped "x" ++ String (hex_digit (n / 16))
                                  (String (hex_digit (n mod 16)) "")
  else String c "".

Definition repr_str (s : string) : string :=
  let quote := if has_char squote s && negb (has_char dquote s)
               then dquote else squote in
  String quote
    (concat "" (map (repr_char quote) (list_ascii_of_string s))
     ++ String quote "").

Definition repr_label (c : label) : string :=
  match c with
  | Name s => repr_str s
  | Pos n => NilEmpty.string_of_uint (Nat.to_uint n)
  end.

(** [str(l)] of a list of labels *)
Definition str_list (l : list label) : string :=
  "[" ++ concat ", " (map repr_label l) ++ "]".

End TableApply.

Module TableApplyImpl.

Import Builtins.
Export TableApply.

(** Modelled from the spec: the [Table] class of the package, of which
    the module imports only the name.  A table is an ordered collection of
    named columns, each a sequence of values aligned by row; [to_df] gives
    the frame with these columns over a fresh row index and [from_df] the
    table with the columns of a frame, names and values unchanged. *)
Definition Table : Type := list (label * list value).

Definition num_rows (t : Table) : nat :=
  match t with
  | [] => 0
  | c :: _ => List.length (snd c)
  end.

Definition to_df (t : Table) : DataFrame := mkDataFrame (RangeIndex (num_rows t)) t.

Definition from_df (df : DataFrame) : Table := columns df.

(** [table_apply(table, func, subset=None)] *)
Definition table_apply (table : Table) (func : pyfunc)
    (subset : option subset_arg) : result Table :=
  let df := to_df table in
  df <- match subset with
        | Some subset =>
            let subset := atleast_1d subset in
            if any (map (fun i => negb (contains (column_labels df) i)) subset)
            then
              let err :=
                np_where (map (fun i => negb (contains (column_labels df) i))
                              subset) in
              names <- comprehension
                         (fun i => py_getitem subset (Z.of_nat i)) err ;;
              let err := "Column mismatch: " ++ str_list names in
              Raise (ValueError err)
            else
              df <- for_each
                      (fun df col =>
                         vals <- getitem df col ;;
                         vals <- Series_apply func vals ;;
                         Return (setitem df col vals))
                      subset df ;;
              Return (Frame df)
        | None => DataFrame_apply func df
        end ;;
  let df := match df with
            | Ser s => transpose (DataFrame_of_Series s)
            | Frame df => df
            end in
  Return (from_df df).

(** [func] reduces the columns of the table: for each of them it returns
    one value, not a sequence. *)
Definition reduces (func : pyfunc) (table : Table) : Prop :=
  Forall (fun c => exists v, func (Seq (snd c)) = Return v /\
                             is_sequence v = false) table.

(** What the loop over [subset] keeps: the labels, and the columns whose
    label is not in [subset]. *)
Definition kept (subset : list label) (cols cols' : list (label * list value))
  : Prop :=
  Forall2 (fun c c' => fst c' = fst c /\
                       (~ In (fst c) subset -> snd c' = snd c)) cols cols'.


(** A sample table and a sample [func]: [len], one number for any column. *)
Definition sample_table : Table :=
  [(Name "a", [Num 1; Num 2; Num 3]); (Name "b", [Num 10; Num 20; Num 30])].

Definition py_len (v : value) : result value :=
  match v with
  | Seq vs | Lst vs => Return (Num (inject_Z (len vs)))
  | _ => Raise (TypeError "object has no len()")
  end.

(** [sum]: the total of a column of numbers; text cannot be added. *)
Definition py_sum (v : value) : result value :=
  match v with
  | Seq vs | Lst vs =>
      total <- for_each (fun acc x =>
                           match x with
                           | Num q => Return (acc + q)%Q
                           | _ => Raise (TypeError "unsupported operand type(s) for +")
                           end) vs 0%Q ;;
      Return (Num total)
  | _ => Raise (TypeError "object is not iterable")
  end.

End TableApplyImpl.

(** ** minimize *)

Module Minimize.

Import Builtins.
Local Open Scope Q_scope.

(** What the objective is called with: numbers, or one vector. *)
Inductive arg : Type :=
| Number (q : Q)
| Vector (v : list Q).

(** A Python function: the [co_argcount] of its code object (the named
    positional parameters, [*args] not counted), whether it has [*args],
    and what a call with given positional arguments does. *)
Record function : Type :=
  { co_argcount : nat;
    co_varargs : bool;
    call : list arg -> result Q }.

(** The objective handed to the optimizer takes one vector. *)
Definition objective_fn : Type := list Q -> result Q.

(** [start] as passed: one number, or something with a length. *)
Inductive start_arg : Type :=
| Scalar (q : Q)
| Values (v : list Q).

(** Option values in [**vargs]. *)
Inductive optval : Type :=
| OStr (s : string)
| ONum (q : Q)
| OBool (b : bool).

Definition kwargs : Type := list (string * optval).

(** ['key' in vargs] *)
Definition has_key (key : string) (vargs : kwargs) : bool :=
  existsb (fun kv => String.eqb key (fst kv)) vargs.

(** [vargs[key] = v] for a key that is not there yet. *)
Definition set_new (key : string) (v : optval) (vargs : kwargs) : kwargs :=
  (vargs ++ [(key, v)])%list.

(** [vargs.get(key)] *)
Definition get (key : string) (vargs : kwargs) : option optval :=
  option_map snd (find (fun kv => String.eqb key (fst kv)) vargs).

(** The result object of [scipy.optimize.minimize]. *)
Record OptimizeResult : Type :=
  { x : list Q; success : bool; message : string }.

(** [scipy.optimize.minimize(objective, start, **vargs)] *)
Definition optimizer : Type :=
  objective_fn -> list Q -> kwargs -> result OptimizeResult.

(** What [minimize] returns: [result.x.item(0)] or [result.x]. *)
Inductive minimum : Type :=
| Item (q : Q)
| Array (v : list Q).

(** [x.item(0)] *)
Definition item0 (v : list Q) : result Q :=
  match v with
  | [] => Raise (IndexError "index 0 is out of bounds for axis 0 with size 0")
  | q :: _ => Return q
  end.

(** Lines 149-155: the starting point the optimizer is given. *)
Definition starting_point (f : function) (start : option start_arg)
    (array : bool) : result (list Q) :=
  start <- match start with
           | None =>
               _ <- py_assert (negb array)
                      "Please pass starting values explicitly when array=True" ;;
               let arg_count := co_argcount f in
               _ <- py_assert (0 <? arg_count)%nat
                      "Please pass starting values explicitly for variadic functions" ;;
               Return (Values (repeat 0 arg_count))
           | Some start => Return start
           end ;;
  Return match start with
         | Scalar q => [q]
         | Values v => v
         end.

(** Lines 157-162: [f] itself, or [f] called with the items unpacked. *)
Definition objective (f : function) (array : bool) : objective_fn :=
  if array then fun v => call f [Vector v]
  else fun args => call f (map Number args).

(** Lines 164-165: Powell unless [smooth] or a method is given. *)
Definition default_method (smooth : bool) (vargs : kwargs) : kwargs :=
  if negb smooth && negb (has_key "method" vargs)
  then set_new "method" (OStr "Powell") vargs
  else vargs.

(** [minimize(f, start=None, smooth=False, log=None, array=False, **vargs)]
    over the optimizer [optimize_minimize]. *)
Definition minimize (optimize_minimize : optimizer)
    (f : function) (start : option start_arg) (smooth : bool)
    (log : option (OptimizeResult -> result unit)) (array : bool)
    (vargs : kwargs) : result minimum :=
  start <- starting_point f start array ;;
  let objective := objective f array in
  let vargs := default_method smooth vargs in
  result <- optimize_minimize objective start vargs ;;
  _ <- match log with
       | Some log => log result
       | None => Return tt
       end ;;
  if (List.length start =? 1)%nat
  then q <- item0 (x result) ;; Return (Item q)
  else Return (Array (x result)).

(** Sample inputs: [lambda x, *rest: x ** 2], [lambda *args: 0],
    [lambda x, y: x*x + y*y], and an optimizer that evaluates the objective
    at the starting point and finds it to be the minimum. *)
Definition square_variadic : function :=
  {| co_argcount := 1;
     co_varargs := true;
     call := fun args => match args with
                         | Number q :: _ => Return (q * q)
                         | _ => Raise (TypeError "unsupported operand")
                         end |}.

Definition only_varargs : function :=
  {| co_argcount := 0;
     co_varargs := true;
     call := fun _ => Return 0 |}.

Definition sum_of_squares : function :=
  {| co_argcount := 2;
     co_varargs := false;
     call := fun args => match args with
                         | [Number a; Number b] => Return (a * a + b * b)
                         | _ => Raise (TypeError "wrong number of arguments")
                         end |}.

Definition stays_at_start : optimizer :=
  fun objective start _ =>
    _ <- objective start ;;
    Return {| x := start; success := true;
              message := "Optimization terminated successfully." |}.

End Minimize.

Section Binary64Facts.
Import Binary64.
Local Open Scope Q_scope.

Lemma pow2_pos (e : Z) : 0 < pow2 e.
Proof. apply Qpower_0_lt. reflexivity. Qed.

Lemma pow2_add (a b : Z) : pow2 (a + b) == pow2 a * pow2 b.
Proof. apply Qpower_plus. discriminate. Qed.

Lemma pow2_int (e : Z) : (0 <= e)%Z -> pow2 e == inject_Z (2 ^ e).
Proof. intros H. unfold pow2. rewrite Zpower_Qpower by exact H. reflexivity. Qed.

Lemma pow2_le (a b : Z) : (a <= b)%Z -> pow2 a <= pow2 b.
Proof. intros H. apply Qpower_le_compat_l; [exact H | discriminate]. Qed.

Lemma pow2_lt_inv (a b : Z) : pow2 a < pow2 b -> (a < b)%Z.
Proof. intros H. apply (Qpower_lt_compat_l_inv 2); [exact H | reflexivity]. Qed.

Lemma Q_as_quotient (x : Q) : x == inject_Z (Qnum x) / inject_Z (Zpos (Qden x)).
Proof. destruct x as [n d]. simpl. apply Qmake_Qdiv. Qed.

Lemma ilog2_lower (x : Q) : 0 < x -> pow2 (ilog2 x) <= x.
Proof.
  intros Hx. unfold ilog2.
  set (la := Z.log2 (Qnum x)). set (lb := Z.log2 (Zpos (Qden x))).
  destruct (Qle_bool (pow2 (la - lb)) x) eqn:E; [apply Qle_bool_iff, E|].
  assert (Hn : (0 < Qnum x)%Z).
  { destruct x as [n d]. unfold Qlt in Hx. simpl in *. lia. }
  destruct (Z.log2_spec (Qnum x) Hn) as [Ha _]. fold la in Ha.
  destruct (Z.log2_spec (Zpos (Qden x)) eq_refl) as [_ Hb]. fold lb in Hb.
  assert (Hla : (0 <= la)%Z) by apply Z.log2_nonneg.
  assert (Hlb : (0 <= lb)%Z) by apply Z.log2_nonneg.
  assert (Ep : pow2 (la - lb - 1)
               == inject_Z (2 ^ la) * / inject_Z (2 ^ (lb + 1))).
  { replace (la - lb - 1)%Z with (la + - (lb + 1))%Z by lia.
    rewrite pow2_add. unfold pow2. rewrite Qpower_opp.
    rewrite !Zpower_Qpower by lia. reflexivity. }
  rewrite Ep. rewrite (Q_as_quotient x).
  unfold Z.succ in Hb.
  assert (H1 : inject_Z (2 ^ la) <= inject_Z (Qnum x)) by (rewrite <- Zle_Qle; exact Ha).
  assert (H2 : inject_Z (Zpos (Qden x)) <= inject_Z (2 ^ (lb + 1)))
    by (rewrite <- Zle_Qle; lia).
  assert (H3 : 0 < inject_Z (Zpos (Qden x))) by reflexivity.
  assert (H4 : 0 < inject_Z (2 ^ la)).
  { change 0 with (inject_Z 0). rewrite <- Zlt_Qlt. apply Z.pow_pos_nonneg; lia. }
  unfold Qdiv.
  apply Qle_trans with (inject_Z (2 ^ la) * / inject_Z (Zpos (Qden x))).
  - apply Qmult_le_l; [exact H4|].
    apply Qle_shift_inv_l; [exact H3|].
    rewrite Qmult_comm. apply Qle_shift_div_r; [lra|].
    rewrite Qmult_1_l. exact H2.
  - apply Qmult_le_compat_r; [exact H1|]. apply Qlt_le_weak, Qinv_lt_0_compat, H3.
Qed.

Lemma ilog2_upper (x : Q) : 0 < x -> x < pow2 (ilog2 x + 1).
Proof.
  intros Hx. unfold ilog2.
  set (la := Z.log2 (Qnum x)). set (lb := Z.log2 (Zpos (Qden x))).
  destruct (Qle_bool (pow2 (la - lb)) x) eqn:E.
  2:{ replace (la - lb - 1 + 1)%Z with (la - lb)%Z by lia.
      apply Qnot_le_lt. intros H. apply Qle_bool_iff in H. congruence. }
  assert (Hn : (0 < Qnum x)%Z).
  { destruct x as [n d]. unfold Qlt in Hx. simpl in *. lia. }
  destruct (Z.log2_spec (Qnum x) Hn) as [_ Ha]. fold la in Ha.
  destruct (Z.log2_spec (Zpos (Qden x)) eq_refl) as [Hb _]. fold lb in Hb.
  assert (Hla : (0 <= la)%Z) by apply Z.log2_nonneg.
  assert (Hlb : (0 <= lb)%Z) by apply Z.log2_nonneg.
  assert (Ep : pow2 (la - lb + 1)
               == inject_Z (2 ^ (la + 1)) * / inject_Z (2 ^ lb)).
  { replace (la - lb + 1)%Z with ((la + 1) + - lb)%Z by lia.
    rewrite pow2_add. unfold pow2. rewrite Qpower_opp.
    rewrite !Zpower_Qpower by lia. reflexivity. }
  rewrite Ep. rewrite (Q_as_quotient x).
  unfold Z.succ in Ha.
  assert (H1 : inject_Z (Qnum x) < inject_Z (2 ^ (la + 1))) by (rewrite <- Zlt_Qlt; exact Ha).
  assert (H2 : inject_Z (2 ^ lb) <= inject_Z (Zpos (Qden x)))
    by (rewrite <- Zle_Qle; lia).
  assert (H3 : 0 < inject_Z (2 ^ lb)).
  { change 0 with (inject_Z 0). rewrite <- Zlt_Qlt. apply Z.pow_pos_nonneg; lia. }
  assert (H4 : 0 < inject_Z (Zpos (Qden x))) by reflexivity.
  assert (H5 : 0 < inject_Z (2 ^ (la + 1))).
  { change 0 with (inject_Z 0). rewrite <- Zlt_Qlt. apply Z.pow_pos_nonneg; lia. }
  unfold Qdiv.
  apply Qlt_le_trans with (inject_Z (2 ^ (la + 1)) * / inject_Z (Zpos (Qden x))).
  - apply Qmult_lt_compat_r; [apply Qinv_lt_0_compat, H4 | exact H1].
  - apply Qmult_le_l; [exact H5|].
    apply Qle_shift_inv_l; [exact H3|].
    rewrite Qmult_comm. apply Qle_shift_div_r; [lra|].
    rewrite Qmult_1_l. exact H2.
Qed.

Lemma rne_bounds (y : Q) : (Qfloor y <= rne y <= Qfloor y + 1)%Z.
Proof.
  unfold rne. destruct (Qcompare _ _); [destruct (Z.even _)| |]; lia.
Qed.

Lemma rne_le (y : Q) (K : Z) : y <= inject_Z K -> (rne y <= K)%Z.
Proof.
  intros H.
  pose proof (Qfloor_le y) as Hf.
  assert (HfK : (Qfloor y <= K)%Z).
  { rewrite Zle_Qle. eapply Qle_trans; eassumption. }
  destruct (Z.eq_dec (Qfloor y) K) as [E|E].
  - unfold rne. rewrite E.
    assert (Hy : y - inject_Z K == 0).
    { rewrite E in Hf. lra. }
    replace (Qcompare (y - inject_Z K) (1 # 2)) with Lt; [lia|].
    symmetry. apply Qlt_alt. rewrite Hy. reflexivity.
  - pose proof (rne_bounds y). lia.
Qed.

Lemma rne_ge (y : Q) (K : Z) : inject_Z K <= y -> (K <= rne y)%Z.
Proof.
  intros H. pose proof (rne_bounds y) as Hb.
  pose proof (Qfloor_resp_le _ _ H) as Hf. rewrite Qfloor_Z in Hf. lia.
Qed.

Lemma rne_int (K : Z) (y : Q) : y == inject_Z K -> rne y = K.
Proof.
  intros H. apply Z.le_antisymm; [apply rne_le | apply rne_ge]; rewrite H; apply Qle_refl.
Qed.

Lemma ulp_exp_nonpos (a : Q) : 0 < a -> a < pow2 53 -> (ulp_exp a <= 0)%Z.
Proof.
  intros Ha H. unfold ulp_exp.
  assert (ilog2 a < 53)%Z; [|lia].
  apply pow2_lt_inv. eapply Qle_lt_trans; [apply ilog2_lower, Ha | exact H].
Qed.

Lemma round_pos_nonneg (a : Q) : 0 < a -> 0 <= round_pos a.
Proof.
  intros Ha. unfold round_pos. rewrite Qred_correct.
  apply Qmult_le_0_compat; [|apply Qlt_le_weak, pow2_pos].
  change 0 with (inject_Z 0). rewrite <- Zle_Qle. apply rne_ge.
  change (inject_Z 0) with 0.
  apply Qle_shift_div_l; [apply pow2_pos|]. lra.
Qed.

(** A number at most the integer [N] rounds to at most [N], below [2^53]. *)
Lemma round_pos_le_int (a : Q) (N : Z) :
  0 < a -> a <= inject_Z N -> a < pow2 53 -> round_pos a <= inject_Z N.
Proof.
  intros Ha HN H53. unfold round_pos. rewrite Qred_correct.
  pose proof (ulp_exp_nonpos a Ha H53) as He.
  set (e := ulp_exp a) in *.
  assert (HM : pow2 e * inject_Z (2 ^ (- e)) == 1).
  { rewrite <- pow2_int by lia. rewrite <- pow2_add.
    replace (e + - e)%Z with 0%Z by lia. reflexivity. }
  pose proof (pow2_pos e) as Hp.
  assert (Hr : (rne (a / pow2 e) <= N * 2 ^ (- e))%Z).
  { apply rne_le. rewrite inject_Z_mult.
    apply Qle_shift_div_r; [exact Hp|].
    rewrite <- Qmult_assoc, (Qmult_comm (inject_Z (2 ^ (- e)))), HM. lra. }
  rewrite Zle_Qle, inject_Z_mult in Hr.
  apply Qle_trans with (inject_Z N * inject_Z (2 ^ (- e)) * pow2 e).
  - apply Qmult_le_compat_r; [exact Hr | lra].
  - rewrite <- Qmult_assoc, (Qmult_comm (inject_Z (2 ^ (- e)))), HM. lra.
Qed.

Lemma Qnum_sign (x : Q) :
  match Qnum x with
  | Z0 => x == 0
  | Zpos _ => 0 < x
  | Zneg _ => x < 0
  end.
Proof.
  destruct x as [[|n|n] d]; unfold Qeq, Qlt; simpl; reflexivity.
Qed.

Lemma round_nonneg (x : Q) : 0 <= x -> 0 <= round x.
Proof.
  intros H. unfold round. pose proof (Qnum_sign x) as Hs.
  destruct (Qnum x).
  - apply Qle_refl.
  - apply round_pos_nonneg, Hs.
  - lra.
Qed.

Lemma round_nonpos (x : Q) : x <= 0 -> round x <= 0.
Proof.
  intros H. unfold round. pose proof (Qnum_sign x) as Hs.
  destruct (Qnum x).
  - apply Qle_refl.
  - lra.
  - assert (0 <= round_pos (- x)) by (apply round_pos_nonneg; lra). lra.
Qed.

Lemma round_le_int (x : Q) (N : Z) :
  (0 <= N)%Z -> x <= inject_Z N -> x < pow2 53 -> round x <= inject_Z N.
Proof.
  intros HN Hx H53.
  assert (HN' : 0 <= inject_Z N) by (change 0 with (inject_Z 0); rewrite <- Zle_Qle; exact HN).
  unfold round. pose proof (Qnum_sign x) as Hs.
  destruct (Qnum x).
  - exact HN'.
  - apply round_pos_le_int; assumption.
  - assert (0 <= round_pos (- x)) by (apply round_pos_nonneg; lra). lra.
Qed.

Lemma rne_near (y : Q) : - (1 # 2) <= inject_Z (rne y) - y /\ inject_Z (rne y) - y <= 1 # 2.
Proof.
  pose proof (Qfloor_le y) as Hlo. pose proof (Qlt_floor y) as Hhi.
  rewrite inject_Z_plus in Hhi. change (inject_Z 1) with 1 in Hhi.
  unfold rne. destruct (Qcompare (y - inject_Z (Qfloor y)) (1 # 2)) eqn:E.
  - apply Qeq_alt in E.
    destruct (Z.even (Qfloor y)); [|rewrite inject_Z_plus; change (inject_Z 1) with 1];
      split; lra.
  - apply Qlt_alt in E. split; lra.
  - apply Qgt_alt in E. rewrite inject_Z_plus. change (inject_Z 1) with 1. split; lra.
Qed.

(** The rounded value is within half a unit in the last place. *)
Lemma round_pos_error (a : Q) :
  0 < a ->
  - (pow2 (ulp_exp a) / 2) <= round_pos a - a /\
  round_pos a - a <= pow2 (ulp_exp a) / 2.
Proof.
  intros Ha. unfold round_pos. rewrite Qred_correct.
  set (e := ulp_exp a). pose proof (pow2_pos e) as Hp.
  destruct (rne_near (a / pow2 e)) as [Hlo Hhi].
  assert (Ea : a == a / pow2 e * pow2 e) by (field; lra).
  assert (H1 : (inject_Z (rne (a / pow2 e)) - a / pow2 e) * pow2 e <= (1 # 2) * pow2 e).
  { apply Qmult_le_compat_r; lra. }
  assert (H2 : - (1 # 2) * pow2 e <= (inject_Z (rne (a / pow2 e)) - a / pow2 e) * pow2 e).
  { apply Qmult_le_compat_r; lra. }
  assert (E2 : pow2 e / 2 == (1 # 2) * pow2 e) by (field).
  split; lra.
Qed.

(** Integers of up to 53 bits are floats. *)
Lemma round_int (n : Z) : (0 <= n < 2 ^ 53)%Z -> round (inject_Z n) == inject_Z n.
Proof.
  intros Hn. unfold round. simpl Qnum at 1.
  destruct n as [|n|n]; [reflexivity| |lia].
  assert (Ha : 0 < inject_Z (Zpos n)) by reflexivity.
  assert (H53 : inject_Z (Zpos n) < pow2 53).
  { rewrite (pow2_int 53) by lia. rewrite <- Zlt_Qlt. lia. }
  unfold round_pos. rewrite Qred_correct.
  pose proof (ulp_exp_nonpos _ Ha H53) as He.
  set (e := ulp_exp (inject_Z (Zpos n))) in *.
  assert (HM : pow2 e * inject_Z (2 ^ (- e)) == 1).
  { rewrite <- pow2_int by lia. rewrite <- pow2_add.
    replace (e + - e)%Z with 0%Z by lia. reflexivity. }
  pose proof (pow2_pos e) as Hp.
  rewrite (rne_int (Zpos n * 2 ^ (- e))).
  - rewrite inject_Z_mult, <- Qmult_assoc, (Qmult_comm (inject_Z (2 ^ (- e)))), HM. ring.
  - rewrite inject_Z_mult.
    apply Qmult_inj_r with (z := pow2 e); [lra|].
    rewrite <- Qmult_assoc, (Qmult_comm (inject_Z (2 ^ (- e)))), HM. field. lra.
Qed.

Lemma rne_mono (y z : Q) : y <= z -> (rne y <= rne z)%Z.
Proof.
  intros H. pose proof (rne_bounds y) as By. pose proof (rne_bounds z) as Bz.
  pose proof (Qfloor_resp_le _ _ H) as Hf.
  destruct (Z.eq_dec (Qfloor y) (Qfloor z)) as [E|E]; [|lia].
  clear By Bz Hf. unfold rne. rewrite <- E.
  destruct (Qcompare (y - inject_Z (Qfloor y)) (1 # 2)) eqn:Cy;
    destruct (Qcompare (z - inject_Z (Qfloor y)) (1 # 2)) eqn:Cz;
    try (destruct (Z.even (Qfloor y)); lia); try lia; exfalso.
  - apply Qeq_alt in Cy. apply Qlt_alt in Cz. lra.
  - apply Qgt_alt in Cy. apply Qeq_alt in Cz. lra.
  - apply Qgt_alt in Cy. apply Qlt_alt in Cz. lra.
Qed.

Lemma ilog2_mono (a b : Q) : 0 < a -> a <= b -> (ilog2 a <= ilog2 b)%Z.
Proof.
  intros Ha Hab.
  assert (ilog2 a < ilog2 b + 1)%Z; [|lia].
  apply pow2_lt_inv.
  eapply Qle_lt_trans; [apply ilog2_lower, Ha|].
  eapply Qle_lt_trans; [exact Hab|]. apply ilog2_upper. lra.
Qed.

(** A power of two that is a multiple of the last bit of [a] bounds the
    rounded [a] as it bounds [a]. *)
Lemma round_pos_le_pow2 (a : Q) (k : Z) :
  0 < a -> (ulp_exp a <= k)%Z -> a <= pow2 k -> round_pos a <= pow2 k.
Proof.
  intros Ha He Hk. unfold round_pos. rewrite Qred_correct.
  set (e := ulp_exp a) in *. pose proof (pow2_pos e) as Hp.
  assert (Ek : pow2 k == inject_Z (2 ^ (k - e)) * pow2 e).
  { rewrite <- pow2_int by lia. rewrite <- pow2_add.
    replace (k - e + e)%Z with k by lia. reflexivity. }
  assert (Hr : (rne (a / pow2 e) <= 2 ^ (k - e))%Z).
  { apply rne_le. apply Qle_shift_div_r; [exact Hp|]. rewrite <- Ek. exact Hk. }
  rewrite Zle_Qle in Hr. rewrite Ek.
  apply Qmult_le_compat_r; [exact Hr | lra].
Qed.

Lemma round_pos_ge_pow2 (b : Q) (k : Z) :
  0 < b -> (ulp_exp b <= k)%Z -> pow2 k <= b -> pow2 k <= round_pos b.
Proof.
  intros Hb He Hk. unfold round_pos. rewrite Qred_correct.
  set (e := ulp_exp b) in *. pose proof (pow2_pos e) as Hp.
  assert (Ek : pow2 k == inject_Z (2 ^ (k - e)) * pow2 e).
  { rewrite <- pow2_int by lia. rewrite <- pow2_add.
    replace (k - e + e)%Z with k by lia. reflexivity. }
  assert (Hr : (2 ^ (k - e) <= rne (b / pow2 e))%Z).
  { apply rne_ge. apply Qle_shift_div_l; [exact Hp|]. rewrite <- Ek. exact Hk. }
  rewrite Zle_Qle in Hr. rewrite Ek.
  apply Qmult_le_compat_r; [exact Hr | lra].
Qed.

Lemma round_pos_mono (a b : Q) : 0 < a -> a <= b -> round_pos a <= round_pos b.
Proof.
  intros Ha Hab. assert (Hb : 0 < b) by lra.
  pose proof (ilog2_mono a b Ha Hab) as Hl.
  destruct (Z.eq_dec (ulp_exp a) (ulp_exp b)) as [E|E].
  - unfold round_pos. rewrite !Qred_correct, E.
    pose proof (pow2_pos (ulp_exp b)) as Hp.
    apply Qmult_le_compat_r; [|lra].
    rewrite <- Zle_Qle. apply rne_mono.
    unfold Qdiv. apply Qmult_le_compat_r; [exact Hab|].
    apply Qlt_le_weak, Qinv_lt_0_compat, Hp.
  - assert (Hk : (ilog2 a + 1 <= ilog2 b)%Z) by (unfold ulp_exp in E; lia).
    apply Qle_trans with (pow2 (ilog2 b)).
    + apply round_pos_le_pow2; [exact Ha | unfold ulp_exp in *; lia |].
      apply Qle_trans with (pow2 (ilog2 a + 1));
        [apply Qlt_le_weak, ilog2_upper, Ha | apply pow2_le, Hk].
    + apply round_pos_ge_pow2; [exact Hb | unfold ulp_exp in *; lia |].
      apply ilog2_lower, Hb.
Qed.

(** Rounding keeps the order. *)
Lemma round_mono (x y : Q) : x <= y -> round x <= round y.
Proof.
  intros H.
  destruct (Qlt_le_dec 0 x) as [Hx|Hx].
  - unfold round. pose proof (Qnum_sign x) as Sx. pose proof (Qnum_sign y) as Sy.
    destruct (Qnum x); [lra| |lra]. destruct (Qnum y); [lra| |lra].
    apply round_pos_mono; assumption.
  - destruct (Qlt_le_dec y 0) as [Hy|Hy].
    + unfold round. pose proof (Qnum_sign x) as Sx. pose proof (Qnum_sign y) as Sy.
      destruct (Qnum y); [lra|lra|]. destruct (Qnum x); [lra|lra|].
      assert (round_pos (- y) <= round_pos (- x)) by (apply round_pos_mono; lra).
      lra.
    + apply Qle_trans with 0; [apply round_nonpos, Hx | apply round_nonneg, Hy].
Qed.

(** The rounding agrees with the standard library's specification of
    binary64 division, multiplication and addition on the values that
    matter below. *)
Example round_agrees_with_SpecFloat :
  SF2Q (SFdiv 53 1024 (Z2SF 7) (Z2SF 100)) = fdiv 7 100 /\
  SF2Q (SFmul 53 1024 (SFdiv 53 1024 (Z2SF 7) (Z2SF 100)) (Z2SF 100))
  = fmul (fdiv 7 100) (of_int 100) /\
  SF2Q (SFdiv 53 1024 (Z2SF 749) (Z2SF 10)) = literal 74.9 /\
  SF2Q (SFmul 53 1024
          (SFdiv 53 1024 (SFdiv 53 1024 (Z2SF 749) (Z2SF 10)) (Z2SF 100))
          (Z2SF 4))
  = fmul (fdiv (literal 74.9) 100) (of_int 4) /\
  SF2Q (SFadd 53 1024 (SFdiv 53 1024 (Z2SF 22) (Z2SF 10))
          (SFdiv 53 1024 (Z2SF 1) (Z2SF 10)))
  = fadd (literal 2.2) (literal 0.1) /\
  SF2Q (SFdiv 53 1024 (S754_finite false 1 (-1074)) (Z2SF 100))
  = fdiv (1 # 2 ^ 1074) 100.
Proof. vm_compute. repeat split. Qed.

End Binary64Facts.

Section PercentileFacts.
Import Builtins Percentile.
Local Open Scope Q_scope.

Lemma Qltb_lt (x y : Q) : Qltb x y = true <-> x < y.
Proof.
  unfold Qltb. rewrite negb_true_iff, <- not_true_iff_false, Qle_bool_iff.
  split; [apply Qnot_le_lt | apply Qlt_not_le].
Qed.

Lemma Qltb_ge (x y : Q) : Qltb x y = false <-> y <= x.
Proof.
  unfold Qltb. rewrite negb_false_iff. apply Qle_bool_iff.
Qed.

Lemma rank_bounds (p : Q) (n : Z) :
  0 < p -> p <= 100 -> (1 <= n)%Z ->
  (1 <= Qceiling ((p / 100) * inject_Z n) <= n)%Z.
Proof.
  intros Hp Hp' Hn.
  assert (Hn' : 1 <= inject_Z n).
  { change 1 with (inject_Z 1). rewrite <- Zle_Qle. exact Hn. }
  assert (Hq : 0 < p / 100 /\ p / 100 <= 1).
  { assert (E : p / 100 == p * (1 # 100)) by reflexivity.
    split; lra. }
  destruct Hq as [Hq0 Hq1].
  split.
  - assert (H : 0 < (p / 100) * inject_Z n).
    { apply Qmult_lt_0_compat; lra. }
    pose proof (Qle_ceiling ((p / 100) * inject_Z n)) as Hc.
    assert (0 < inject_Z (Qceiling ((p / 100) * inject_Z n))) by lra.
    change 0 with (inject_Z 0) in H0. rewrite <- Zlt_Qlt in H0. lia.
  - rewrite <- (Qceiling_Z n) at 2. apply Qceiling_resp_le.
    rewrite <- (Qmult_1_l (inject_Z n)) at 2.
    apply Qmult_le_compat_r; lra.
Qed.

Lemma insert_perm (x : Q) (l : list Q) : Permutation (x :: l) (insert x l).
Proof.
  induction l as [|y l IH]; simpl; [reflexivity|].
  destruct (Qltb y x); [|reflexivity].
  rewrite perm_swap. apply perm_skip, IH.
Qed.

Lemma sorted_perm (l : list Q) : Permutation l (sorted l).
Proof.
  induction l as [|x l IH]; simpl; [constructor|].
  rewrite <- insert_perm. apply perm_skip, IH.
Qed.

Lemma sorted_len (l : list Q) : len (sorted l) = len l.
Proof.
  unfold len. f_equal. symmetry. apply Permutation_length, sorted_perm.
Qed.

Lemma insert_ascending (x : Q) (l : list Q) :
  StronglySorted Qle l -> StronglySorted Qle (insert x l).
Proof.
  induction 1 as [|y l Hs IH Hy]; simpl.
  - repeat constructor.
  - destruct (Qltb y x) eqn:E.
    + apply Qltb_lt in E. constructor; [exact IH|].
      apply (Permutation_Forall (insert_perm x l)).
      constructor; [apply Qlt_le_weak, E | exact Hy].
    + apply Qltb_ge in E. constructor; [constructor; assumption|].
      constructor; [exact E|].
      eapply Forall_impl; [|exact Hy].
      intros z Hz. eapply Qle_trans; eassumption.
Qed.

Lemma sorted_ascending (l : list Q) : StronglySorted Qle (sorted l).
Proof.
  induction l; simpl; [constructor | apply insert_ascending; assumption].
Qed.

Lemma ascending_nth (l : list Q) :
  StronglySorted Qle l ->
  forall (i j : nat) (a b : Q),
    nth_error l i = Some a -> nth_error l j = Some b -> (i <= j)%nat -> a <= b.
Proof.
  induction 1 as [|y l Hs IH Hy]; intros i j a b Hi Hj Hij.
  - destruct i; discriminate.
  - destruct i as [|i], j as [|j]; simpl in *.
    + injection Hi as <-. injection Hj as <-. apply Qle_refl.
    + injection Hi as <-. rewrite Forall_forall in Hy.
      apply Hy. eapply nth_error_In; eassumption.
    + lia.
    + eapply IH; eauto. lia.
Qed.

Lemma getitem_in_range {A : Type} (l : list A) (i : Z) :
  (0 <= i < len l)%Z ->
  exists a, py_getitem l i = Return a /\ nth_error l (Z.to_nat i) = Some a.
Proof.
  intros Hi. unfold py_getitem.
  destruct (i <? 0)%Z eqn:E0; [apply Z.ltb_lt in E0; lia|].
  rewrite E0. simpl.
  destruct (len l <=? i)%Z eqn:E1; [apply Z.leb_le in E1; lia|].
  destruct (nth_error l (Z.to_nat i)) as [a|] eqn:E.
  - exists a. split; reflexivity.
  - apply nth_error_None in E. unfold len in Hi. lia.
Qed.

Lemma getitem_In {A : Type} (l : list A) (i : Z) (a : A) :
  py_getitem l i = Return a -> In a l.
Proof.
  unfold py_getitem.
  destruct (_ || _); [discriminate|].
  destruct (nth_error _ _) eqn:E; [|discriminate].
  intros [= <-]. eapply nth_error_In; eassumption.
Qed.

Lemma fold_min_spec (l : list Q) (x : Q) :
  let m := fold_left (fun best item => if Qltb item best then item else best) l x in
  In m (x :: l) /\ forall y, In y (x :: l) -> m <= y.
Proof.
  revert x. induction l as [|z l IH]; intros x; simpl.
  - split; [left; reflexivity|]. intros y [<-|[]]. apply Qle_refl.
  - destruct (Qltb z x) eqn:E.
    + apply Qltb_lt in E. destruct (IH z) as [Hin Hle]. split.
      * right. exact Hin.
      * intros y [<-|Hy]; [|apply Hle, Hy].
        eapply Qle_trans; [apply Hle; left; reflexivity | apply Qlt_le_weak, E].
    + apply Qltb_ge in E. destruct (IH x) as [Hin Hle]. split.
      * destruct Hin as [<-|Hin]; [left; reflexivity | right; right; exact Hin].
      * intros y [<-|[<-|Hy]].
        -- apply Hle. left. reflexivity.
        -- eapply Qle_trans; [apply Hle; left; reflexivity | exact E].
        -- apply Hle. right. exact Hy.
Qed.

Lemma fold_max_spec (l : list Q) (x : Q) :
  let m := fold_left (fun best item => if Qltb best item then item else best) l x in
  In m (x :: l) /\ forall y, In y (x :: l) -> y <= m.
Proof.
  revert x. induction l as [|z l IH]; intros x; simpl.
  - split; [left; reflexivity|]. intros y [<-|[]]. apply Qle_refl.
  - destruct (Qltb x z) eqn:E.
    + apply Qltb_lt in E. destruct (IH z) as [Hin Hle]. split.
      * right. exact Hin.
      * intros y [<-|Hy]; [|apply Hle, Hy].
        eapply Qle_trans; [apply Qlt_le_weak, E | apply Hle; left; reflexivity].
    + apply Qltb_ge in E. destruct (IH x) as [Hin Hle]. split.
      * destruct Hin as [<-|Hin]; [left; reflexivity | right; right; exact Hin].
      * intros y [<-|[<-|Hy]].
        -- apply Hle. left. reflexivity.
        -- eapply Qle_trans; [exact E | apply Hle; left; reflexivity].
        -- apply Hle. right. exact Hy.
Qed.

Lemma percentile_PNum (p : Q) (arr : list Q) :
  percentile (PNum p) (Some arr) = (v <- percentile_num p arr ;; Return (VNum v)).
Proof. reflexivity. Qed.

Lemma percentile_num_zero (p : Q) (arr : list Q) :
  p == 0 -> percentile_num p arr = py_min arr.
Proof.
  intros H. unfold percentile_num.
  apply Qeq_bool_iff in H. rewrite H. reflexivity.
Qed.

Lemma percentile_num_rank (p : Q) (arr : list Q) :
  arr <> [] -> 0 < p -> p <= 100 ->
  let k := Qceiling ((p / 100) * inject_Z (len arr)) in
  (1 <= k <= len arr)%Z /\
  exists v, percentile_num p arr = Return v /\
            nth_error (sorted arr) (Z.to_nat (k - 1)) = Some v.
Proof.
  intros Hne Hp Hp' k.
  assert (Hn : (1 <= len arr)%Z).
  { destruct arr; [contradiction | unfold len; simpl; lia]. }
  pose proof (rank_bounds p (len arr) Hp Hp' Hn) as Hk. fold k in Hk.
  split; [exact Hk|].
  unfold percentile_num.
  destruct (Qeq_bool p 0) eqn:E0.
  { apply Qeq_bool_iff in E0. lra. }
  apply Qltb_lt in Hp. apply Qle_bool_iff in Hp'. rewrite Hp, Hp'. simpl.
  fold k. apply getitem_in_range. rewrite sorted_len. lia.
Qed.

Lemma percentile_num_out_of_range (p : Q) (arr : list Q) :
  ~ p == 0 -> ~ (0 < p /\ p <= 100) ->
  percentile_num p arr = Raise (AssertionError "Percentile requires a percent").
Proof.
  intros H0 Hr. unfold percentile_num.
  destruct (Qeq_bool p 0) eqn:E0.
  { apply Qeq_bool_iff in E0. contradiction. }
  destruct (Qltb 0 p && Qle_bool p 100) eqn:E; [|reflexivity].
  apply andb_true_iff in E. destruct E as [E1 E2].
  apply Qltb_lt in E1. apply Qle_bool_iff in E2. tauto.
Qed.

Lemma percentile_num_In (p : Q) (arr : list Q) (v : Q) :
  percentile_num p arr = Return v -> In v arr.
Proof.
  unfold percentile_num. destruct (Qeq_bool p 0).
  - destruct arr as [|x l]; simpl; [discriminate|].
    intros [= <-]. apply (fold_min_spec l x).
  - destruct (py_assert _ _); simpl; [|discriminate].
    intros H. apply getitem_In in H.
    eapply Permutation_in; [symmetry; apply sorted_perm | exact H].
Qed.

(** The doctest of the curried form, a vector of percents, an empty array. *)
Example percentile_doctest_curried :
  (f <- percentile (PNum 75) None ;; call f (Some [1; 3; 5; 9]))
  = Return (VNum 5).
Proof. reflexivity. Qed.

Example percentile_of_vector :
  percentile (PSeq [PNum 25; PNum 50; PNum 0]) (Some [9; 1; 5; 3])
  = Return (VArray [VNum 1; VNum 3; VNum 1]).
Proof. vm_compute. reflexivity. Qed.

Example percentile_of_empty :
  percentile (PNum 50) (Some [])
  = Raise (IndexError "list index out of range") /\
  percentile (PNum 0) (Some [])
  = Raise (ValueError "min() arg is an empty sequence").
Proof. split; reflexivity. Qed.

(** C2: for a non-empty [arr], [percentile(0, arr)] is [min(arr)], an item
    of [arr] below all others, and [percentile(100, arr)] is an item of
    [arr] above all others, equal ([==]) to [max(arr)]. *)
Theorem percentile_min_max (arr : list Q) :
  arr <> [] ->
  (exists m, percentile (PNum 0) (Some arr) = Return (VNum m) /\
             py_min arr = Return m /\
             In m arr /\ forall x, In x arr -> m <= x) /\
  (exists M M', percentile (PNum 100) (Some arr) = Return (VNum M) /\
                py_max arr = Return M' /\ M == M' /\
                In M arr /\ forall x, In x arr -> x <= M).
Proof.
  intros Hne. split.
  - destruct arr as [|x l]; [contradiction|].
    pose proof (fold_min_spec l x) as [Hin Hle].
    eexists. split; [|split; [|split]].
    + rewrite percentile_PNum, percentile_num_zero by reflexivity. reflexivity.
    + reflexivity.
    + exact Hin.
    + exact Hle.
  - assert (H : 0 < 100 /\ 100 <= 100) by (split; [reflexivity | discriminate]).
    destruct H as [H0 H100].
    destruct (percentile_num_rank 100 arr Hne H0 H100) as [_ [M [HM Hnth]]].
    assert (Hk : Qceiling ((100 / 100) * inject_Z (len arr)) = len arr).
    { rewrite <- (Qceiling_Z (len arr)) at 2. apply Qceiling_comp.
      setoid_replace (100 / 100) with 1 by reflexivity. apply Qmult_1_l. }
    rewrite Hk in Hnth.
    assert (Hup : forall x, In x arr -> x <= M).
    { intros x Hx.
      apply (Permutation_in _ (sorted_perm arr)) in Hx.
      apply In_nth_error in Hx. destruct Hx as [i Hi].
      apply (ascending_nth _ (sorted_ascending arr) i _ x M Hi Hnth).
      assert (Hlt : (i < List.length (sorted arr))%nat).
      { apply nth_error_Some. rewrite Hi. discriminate. }
      pose proof (sorted_len arr) as Hl. unfold len in *. lia. }
    assert (HMin : In M arr) by (eapply percentile_num_In; eassumption).
    destruct arr as [|x l]; [contradiction|].
    pose proof (fold_max_spec l x) as [Hin Hle].
    eexists M, _. split; [|split; [|split; [|split]]].
    + rewrite percentile_PNum, HM. reflexivity.
    + reflexivity.
    + apply Qle_antisym; [apply Hle, HMin | apply Hup, Hin].
    + exact HMin.
    + exact Hup.
Qed.

Lemma percentile_min_max_witness :
  (exists m, percentile (PNum 0) (Some [3; 1; 9; 5]) = Return (VNum m) /\
             py_min [3; 1; 9; 5] = Return m /\
             In m [3; 1; 9; 5] /\ forall x, In x [3; 1; 9; 5] -> m <= x) /\
  (exists M M', percentile (PNum 100) (Some [3; 1; 9; 5]) = Return (VNum M) /\
                py_max [3; 1; 9; 5] = Return M' /\ M == M' /\
                In M [3; 1; 9; 5] /\ forall x, In x [3; 1; 9; 5] -> x <= M).
Proof.
  apply (percentile_min_max [3; 1; 9; 5]). discriminate.
Defined.

(** C4: for a number [p] that is neither 0 nor in (0, 100], and any array,
    [percentile(p, arr)] raises AssertionError with the message
    "Percentile requires a percent". *)
Theorem percentile_rejects_non_percent (p : Q) (arr : list Q) :
  ~ p == 0 -> ~ (0 < p /\ p <= 100) ->
  percentile (PNum p) (Some arr)
  = Raise (AssertionError "Percentile requires a percent").
Proof.
  intros H0 Hr.
  rewrite percentile_PNum, (percentile_num_out_of_range p arr H0 Hr). reflexivity.
Qed.

Lemma percentile_rejects_non_percent_witness :
  percentile (PNum (-1)) (Some [1; 3; 5; 9])
  = Raise (AssertionError "Percentile requires a percent") /\
  percentile (PNum 150) (Some [1; 3; 5; 9])
  = Raise (AssertionError "Percentile requires a percent").
Proof.
  split.
  - apply (percentile_rejects_non_percent (-1) [1; 3; 5; 9]).
    + discriminate.
    + intros [H _]. discriminate H.
  - apply (percentile_rejects_non_percent 150 [1; 3; 5; 9]).
    + discriminate.
    + intros [_ H]. apply H. reflexivity.
Defined.

(** C10: for a non-empty [arr] and [0 <= p <= 100], [percentile(p, arr)]
    returns a number that is one of the items of [arr]. *)
Theorem percentile_selects_item (p : Q) (arr : list Q) :
  arr <> [] -> 0 <= p -> p <= 100 ->
  exists v, percentile (PNum p) (Some arr) = Return (VNum v) /\ In v arr.
Proof.
  intros Hne Hp Hp'.
  assert (Hv : exists v, percentile_num p arr = Return v).
  { destruct (Qeq_dec p 0) as [E|E].
    - rewrite (percentile_num_zero p arr E).
      destruct arr; [contradiction | eexists; reflexivity].
    - assert (Hpos : 0 < p) by (apply Qle_lteq in Hp; destruct Hp as [Hp|Hp];
                                 [exact Hp | symmetry in Hp; contradiction]).
      destruct (percentile_num_rank p arr Hne Hpos Hp') as [_ [v [Hv _]]].
      exists v. exact Hv. }
  destruct Hv as [v Hv]. exists v. split.
  - rewrite percentile_PNum, Hv. reflexivity.
  - eapply percentile_num_In; eassumption.
Qed.

Lemma percentile_selects_item_witness :
  exists v, percentile (PNum 33.3) (Some [2.5; 1; 7]) = Return (VNum v) /\
            In v [2.5; 1; 7].
Proof.
  apply (percentile_selects_item 33.3 [2.5; 1; 7]).
  - discriminate.
  - discriminate.
  - discriminate.
Defined.

End PercentileFacts.

Section NormalCdfFacts.
Import Builtins Binary64 NormalCdf.
Local Open Scope Q_scope.

(** The samples in binary64: [np.arange(1, 1.3, 0.1)] has four samples,
    the last above 1.3; with [rbound = 2.2] alone the gold region has 59
    samples and the last lies beyond [rbound + 0.1]; with [lbound = -3] the
    dark blue region ends just right of -2.9. *)
Example arange_in_binary64 :
  arange 1 (literal 1.3) (literal 0.1)
  = [1; literal 1.1; literal 1.2000000000000002; literal 1.3000000000000003] /\
  (exists gold,
      filled_regions (plot_normal_cdf (Some (literal 2.2)) None 0 1)
      = [(gold, "gold")] /\
      List.length gold = 59%nat /\
      last gold 0 = literal 2.300000000000005 /\
      fadd (literal 2.2) (literal 0.1) < last gold 0) /\
  (exists gold blue,
      filled_regions (plot_normal_cdf (Some 1) (Some (-3)) 0 1)
      = [(gold, "gold"); (blue, "darkblue")] /\
      List.length blue = 7%nat /\
      last blue 0 = literal (-2.8999999999999995)).
Proof.
  split; [vm_compute; reflexivity|]. split.
  - eexists. split; [reflexivity|]. vm_compute. repeat split.
  - do 2 eexists. split; [reflexivity|]. vm_compute. repeat split.
Qed.


(** There are no samples when [stop] is not beyond [start]. *)
Lemma arange_length_nonpos (start stop step : Q) :
  0 < step -> stop <= start -> (arange_length start stop step <= 0)%Z.
Proof.
  intros Hstep H. unfold arange_length, fdiv, fsub.
  assert (Hd : round (stop - start) <= 0) by (apply round_nonpos; lra).
  set (delta := round (stop - start)) in *.
  assert (Hq : delta / step <= 0).
  { apply Qle_shift_div_r; [exact Hstep | lra]. }
  assert (Ht : round (delta / step) <= 0) by (apply round_nonpos; exact Hq).
  destruct (Qeq_bool (round (delta / step)) 0 && negb (Qeq_bool delta 0)) eqn:E.
  - apply andb_true_iff in E. destruct E as [_ E].
    apply negb_true_iff, not_true_iff_false in E. rewrite Qeq_bool_iff in E.
    assert (Hlt : delta / step < 0).
    { apply Qle_lteq in Hq. destruct Hq as [Hq|Hq]; [exact Hq|].
      exfalso. apply E.
      assert (Ed : delta == delta / step * step) by (field; lra).
      rewrite Ed, Hq. ring. }
    apply Qltb_lt in Hlt. rewrite Hlt. lia.
  - change 0%Z with (Qceiling 0). apply Qceiling_resp_le, Ht.
Qed.

Lemma arange_nil (start stop step : Q) :
  0 < step -> stop <= start -> arange start stop step = [].
Proof.
  intros Hstep H. unfold arange.
  pose proof (arange_length_nonpos start stop step Hstep H).
  replace (Z.to_nat _) with 0%nat by lia. reflexivity.
Qed.

Lemma step_pos : 0 < literal 0.1.
Proof. reflexivity. Qed.

Lemma regions_both (rbound lbound mean sd : Q) :
  filled_regions (plot_normal_cdf (Some rbound) (Some lbound) mean sd)
  = [(arange lbound (fadd rbound (literal 0.1)) (literal 0.1), "gold");
     (arange (fadd (- fmul 3.5 sd) mean) (fadd lbound (literal 0.1))
             (literal 0.1), "darkblue")].
Proof. reflexivity. Qed.




End NormalCdfFacts.

Section TableApplyFacts.
Import Builtins TableApplyImpl.

Lemma label_eqb_eq (a b : label) : label_eqb a b = true <-> a = b.
Proof.
  destruct a, b; simpl; try (split; discriminate).
  - rewrite String.eqb_eq. split; congruence.
  - rewrite Nat.eqb_eq. split; congruence.
Qed.

Lemma contains_In (labels : list label) (i : label) :
  contains labels i = true <-> In i labels.
Proof.
  unfold contains. rewrite existsb_exists. split.
  - intros [c [Hc E]]. apply label_eqb_eq in E. subst. exact Hc.
  - intros H. exists i. split; [exact H | apply label_eqb_eq; reflexivity].
Qed.

Lemma any_map {A : Type} (f : A -> bool) (l : list A) :
  any (map f l) = existsb f l.
Proof.
  unfold any. induction l; simpl; congruence.
Qed.

Lemma getitem_middle {A : Type} (pre l : list A) (a : A) :
  py_getitem (pre ++ a :: l) (Z.of_nat (List.length pre)) = Return a.
Proof.
  destruct (getitem_in_range (pre ++ a :: l) (Z.of_nat (List.length pre)))
    as [b [Hb Hnth]].
  - unfold len. rewrite length_app. simpl. lia.
  - rewrite Nat2Z.id, nth_error_app2, Nat.sub_diag in Hnth by lia.
    simpl in Hnth. congruence.
Qed.

(** Picking the items at the positions [np.where] reports is filtering. *)
Lemma where_gather {A : Type} (f : A -> bool) (l pre : list A) :
  comprehension (fun i => py_getitem (pre ++ l) (Z.of_nat i))
    (flat_map (fun kb : nat * bool => if snd kb then [fst kb] else [])
       (combine (seq (List.length pre) (List.length (map f l))) (map f l)))
  = Return (filter f l).
Proof.
  revert pre. induction l as [|a l IH]; intros pre; simpl; [reflexivity|].
  assert (E : comprehension
                (fun i => py_getitem (pre ++ a :: l) (Z.of_nat i))
                (flat_map (fun kb : nat * bool => if snd kb then [fst kb] else [])
                   (combine (seq (S (List.length pre)) (List.length (map f l)))
                            (map f l)))
              = Return (filter f l)).
  { specialize (IH (pre ++ [a])%list).
    rewrite <- app_assoc, length_app, Nat.add_comm in IH. exact IH. }
  destruct (f a); simpl.
  - rewrite getitem_middle. simpl. rewrite E. reflexivity.
  - exact E.
Qed.

Lemma where_filter {A : Type} (f : A -> bool) (l : list A) :
  comprehension (fun i => py_getitem l (Z.of_nat i)) (np_where (map f l))
  = Return (filter f l).
Proof.
  apply (where_gather f l []).
Qed.

(** C5: when some identifier of [subset] is not a column of the table,
    [table_apply(table, func, subset)] raises ValueError; its message is
    "Column mismatch: " and the list of the identifiers of [subset] that
    are not columns, each as often and in the order [subset] has them. *)
Theorem table_apply_column_mismatch
    (table : Table) (func : pyfunc) (subset : subset_arg) :
  (exists i, In i (atleast_1d subset) /\ ~ In i (map fst table)) ->
  exists missing,
    table_apply table func (Some subset)
    = Raise (ValueError ("Column mismatch: " ++ str_list missing)) /\
    missing = filter (fun i => negb (contains (map fst table) i))
                     (atleast_1d subset) /\
    (forall i, In i missing <->
               In i (atleast_1d subset) /\ ~ In i (map fst table)).
Proof.
  intros [i [Hi Hmiss]].
  eexists. split; [|split; [reflexivity|]].
  - unfold table_apply. simpl. rewrite any_map.
    replace (existsb _ _) with true.
    + rewrite where_filter. reflexivity.
    + symmetry. apply existsb_exists. exists i. split; [exact Hi|].
      apply negb_true_iff, not_true_iff_false.
      rewrite contains_In. exact Hmiss.
  - intros j. rewrite filter_In, negb_true_iff, <- not_true_iff_false, contains_In.
    reflexivity.
Qed.

Lemma reduce_columns (func : pyfunc) (cols : list (label * list value)) :
  Forall (fun c => exists v, func (Seq (snd c)) = Return v /\
                             is_sequence v = false) cols ->
  exists results,
    comprehension (fun c => r <- func (Seq (snd c)) ;; Return (fst c, r)) cols
    = Return results /\
    Forall2 (fun c r => fst r = fst c /\ func (Seq (snd c)) = Return (snd r) /\
                        is_sequence (snd r) = false) cols results.
Proof.
  induction 1 as [|c cols [v [Hv Hs]] _ [results [E F]]]; simpl.
  - exists []. split; [reflexivity | constructor].
  - exists ((fst c, v) :: results). split.
    + rewrite Hv. simpl. rewrite E. reflexivity.
    + constructor; [simpl; auto | exact F].
Qed.

Lemma transpose_rows (names : list label) (pre vals : list value) :
  List.length names = List.length vals ->
  map (fun kr : nat * label =>
         (snd kr,
          flat_map (fun c : label * list value =>
                      match nth_error (snd c) (fst kr) with
                      | Some v => [v]
                      | None => []
                      end) [(Pos 0, (pre ++ vals)%list)]))
      (combine (seq (List.length pre) (List.length names)) names)
  = map (fun nv => (fst nv, [snd nv])) (combine names vals).
Proof.
  revert pre vals. induction names as [|n names IH]; intros pre vals Hlen;
    [reflexivity|].
  destruct vals as [|v vals]; [discriminate|].
  simpl. f_equal.
  - rewrite nth_error_app2, Nat.sub_diag by lia. reflexivity.
  - specialize (IH (pre ++ [v])%list vals).
    rewrite <- app_assoc, length_app, Nat.add_comm in IH. simpl in IH.
    apply IH. simpl in Hlen. lia.
Qed.

Lemma transpose_Series (names : list label) (vals : list value) :
  List.length names = List.length vals ->
  transpose (DataFrame_of_Series (mkSeries names vals))
  = mkDataFrame [Pos 0] (map (fun nv => (fst nv, [snd nv])) (combine names vals)).
Proof.
  intros Hlen. unfold transpose, DataFrame_of_Series, column_labels. simpl.
  f_equal. apply (transpose_rows names [] vals Hlen).
Qed.

Lemma table_apply_column_mismatch_witness :
  table_apply sample_table (fun v => Return v)
              (Some (Many [Name "z"; Name "a"; Name "y"]))
  = Raise (ValueError "Column mismatch: ['z', 'y']").
Proof.
  destruct (table_apply_column_mismatch sample_table (fun v => Return v)
              (Many [Name "z"; Name "a"; Name "y"]))
    as [missing [E [Hm _]]].
  - exists (Name "z"). split; [left; reflexivity|].
    intros [H|[H|[]]]; discriminate H.
  - rewrite E, Hm. reflexivity.
Defined.

Lemma combine_fst_snd' {A B : Type} (l : list (A * B)) :
  map (fun nv : A * B => (fst nv, [snd nv])) (combine (map fst l) (map snd l))
  = map (fun r => (fst r, [snd r])) l.
Proof.
  induction l as [|[a b] l IH]; simpl; congruence.
Qed.

Lemma RangeIndex_nil (n : nat) : RangeIndex n = [] -> n = 0%nat.
Proof. destruct n; [reflexivity | discriminate]. Qed.

Lemma combine_constant {A B C : Type} (f : A -> B) (l : list A) (c : C) :
  map (fun nv : B * C => (fst nv, [snd nv]))
      (combine (map f l) (map (fun _ => c) l))
  = map (fun a => (f a, [c])) l.
Proof.
  induction l as [|a l IH]; simpl; [reflexivity|]. rewrite IH. reflexivity.
Qed.

Lemma Series_of_single (v : value) (labels : list label) :
  is_sequence v = false ->
  Series_of v labels = Return (mkSeries labels (map (fun _ => v) labels)).
Proof. destruct v; simpl; intros H; congruence. Qed.

(** What goes to [from_df] when [func] reduces the columns of the table:
    one value for each column. *)
Lemma apply_reduce (table : Table) (func : pyfunc) :
  reduces func table ->
  exists obj results,
    DataFrame_apply func (to_df table) = Return obj /\
    columns (match obj with
             | Ser s => transpose (DataFrame_of_Series s)
             | Frame df => df
             end)
    = map (fun r : label * value => (fst r, [snd r])) results /\
    Forall2 (fun c r => fst r = fst c /\
                        ((0 < num_rows table)%nat ->
                         func (Seq (snd c)) = Return (snd r)))
            table results.
Proof.
  intros Hred. unfold DataFrame_apply.
  change (columns (to_df table)) with table.
  change (index (to_df table)) with (RangeIndex (num_rows table)).
  destruct table as [|c0 cols].
  - destruct (func (Seq [])) as [r|e]; [destruct (is_Series r)|];
      (eexists; exists []; split; [reflexivity|]; split;
       [reflexivity | constructor]).
  - destruct (RangeIndex (num_rows (c0 :: cols))) as [|i0 idx] eqn:Eidx.
    + apply RangeIndex_nil in Eidx. simpl in Eidx.
      apply length_zero_iff_nil in Eidx.
      inversion Hred as [|c cs [v [Hv Hs]] _]; subst.
      rewrite Eidx in Hv. rewrite Hv.
      assert (Hser : is_Series v = false) by (destruct v; simpl in *; congruence).
      rewrite Hser, (Series_of_single _ _ Hs). cbn [bind].
      change (column_labels (to_df (c0 :: cols))) with (map fst (c0 :: cols)).
      rewrite map_map.
      exists (Ser (mkSeries (map fst (c0 :: cols))
                       (map (fun _ => v) (c0 :: cols)))),
             (map (fun c => (fst c, v)) (c0 :: cols)).
      split; [reflexivity|]. split.
      * rewrite transpose_Series by (rewrite !length_map; reflexivity).
        cbn [columns]. rewrite combine_constant, map_map. reflexivity.
      * replace (num_rows (c0 :: cols)) with 0%nat
          by (simpl; rewrite Eidx; reflexivity).
        generalize (c0 :: cols). intros l.
        induction l as [|c l IH]; simpl; constructor; [|exact IH].
        simpl. split; [reflexivity | lia].
    + destruct (reduce_columns func (c0 :: cols) Hred) as [results [E F]].
      rewrite E. cbn [bind].
      exists (Ser (mkSeries (map fst results) (map snd results))), results.
      split.
      * inversion F as [|c' r cols' rest [_ [_ Hs]] F' E1 E2]; subst.
        destruct r as [l v]. simpl in Hs. rewrite Hs. reflexivity.
      * split.
        -- rewrite transpose_Series by (rewrite !length_map; reflexivity).
           simpl columns. rewrite combine_fst_snd'. reflexivity.
        -- eapply Forall2_impl; [|exact F].
           intros c r [Hn [Hv _]]. auto.
Qed.

(** C6: when [func] gives a single value (not a sequence) for each column
    of the table, as [sum] does on columns of numbers,
    [table_apply(table, func)] returns a table with the column names of
    the input, in order, and in each column exactly one value: one row, as
    many columns as the input.  When the table has rows the value is
    [func] of the input column. *)
Theorem table_apply_reduce (table : Table) (func : pyfunc) :
  reduces func table ->
  exists out,
    table_apply table func None = Return out /\
    map fst out = map fst table /\
    List.length out = List.length table /\
    Forall (fun c => List.length (snd c) = 1%nat) out /\
    (out <> [] -> num_rows out = 1%nat) /\
    ((0 < num_rows table)%nat ->
     Forall2 (fun c c' => fst c' = fst c /\
                          exists v, func (Seq (snd c)) = Return v /\ snd c' = [v])
             table out).
Proof.
  intros Hred.
  destruct (apply_reduce table func Hred) as [obj [results [E [Hcols F]]]].
  exists (map (fun r => (fst r, [snd r])) results).
  assert (Hout : table_apply table func None
                 = Return (map (fun r => (fst r, [snd r])) results)).
  { unfold table_apply. rewrite E. cbn [bind]. unfold from_df.
    rewrite Hcols. reflexivity. }
  assert (Hrows : Forall (fun c : label * list value => List.length (snd c) = 1%nat)
                         (map (fun r : label * value => (fst r, [snd r])) results)).
  { apply Forall_forall. intros c Hc. apply in_map_iff in Hc.
    destruct Hc as [r [<- _]]. reflexivity. }
  split; [exact Hout|]. split; [|split; [|split; [|split]]].
  - rewrite map_map. simpl. clear E Hout Hrows Hcols.
    induction F as [|c r cols rest [Hn _] F IH]; simpl; congruence.
  - rewrite length_map. symmetry. eapply Forall2_length; eassumption.
  - exact Hrows.
  - intros Hne. destruct results as [|r results]; [contradiction|]. reflexivity.
  - intros Hpos. clear E Hout Hrows Hcols.
    induction F as [|c r cols rest [Hn Hv] F IH]; simpl; constructor.
    + simpl. split; [exact Hn|]. exists (snd r). split; [apply Hv, Hpos | reflexivity].
    + exact IH.
Qed.

Lemma table_apply_reduce_witness :
  table_apply sample_table py_sum None
  = Return [(Name "a", [Num 6]); (Name "b", [Num 60])].
Proof.
  destruct (table_apply_reduce sample_table py_sum)
    as [out [E _]].
  - repeat constructor; eexists; split; reflexivity.
  - rewrite E. vm_compute in E. injection E as <-. reflexivity.
Defined.

End TableApplyFacts.

Section MinimizeFacts.
Import Minimize.
Local Open Scope Q_scope.

Variable optimize_minimize : optimizer.

Lemma minimize_unfold (f : function) (start : option start_arg) (smooth : bool)
    (log : option (OptimizeResult -> result unit)) (array : bool)
    (vargs : kwargs) :
  minimize optimize_minimize f start smooth log array vargs
  = (start <- starting_point f start array ;;
     result <- optimize_minimize (objective f array) start
                 (default_method smooth vargs) ;;
     _ <- match log with
          | Some log => log result
          | None => Return tt
          end ;;
     if (List.length start =? 1)%nat
     then q <- item0 (x result) ;; Return (Item q)
     else Return (Array (x result))).
Proof. reflexivity. Qed.

(** C7, as the code has it: without [start], [minimize] raises
    AssertionError when [array=True] and when [f] has no named positional
    parameter ([co_argcount] is 0: no parameters, or only [*args]); with at
    least one named parameter, variadic or not, the start is one zero per
    named parameter; an exception raised by the optimizer is the exception
    [minimize] raises. *)
Theorem minimize_start_contract (f : function) (smooth : bool)
    (log : option (OptimizeResult -> result unit)) (vargs : kwargs) :
  minimize optimize_minimize f None smooth log true vargs
  = Raise (AssertionError
             "Please pass starting values explicitly when array=True") /\
  (co_argcount f = 0%nat ->
   minimize optimize_minimize f None smooth log false vargs
   = Raise (AssertionError
              "Please pass starting values explicitly for variadic functions")) /\
  ((0 < co_argcount f)%nat ->
   starting_point f None false = Return (repeat 0 (co_argcount f))) /\
  (forall (start : option start_arg) (array : bool) (start' : list Q) (e : exn),
      starting_point f start array = Return start' ->
      optimize_minimize (objective f array) start' (default_method smooth vargs)
      = Raise e ->
      minimize optimize_minimize f start smooth log array vargs = Raise e).
Proof.
  split; [reflexivity|]. split; [|split].
  - intros H. rewrite minimize_unfold. unfold starting_point. rewrite H.
    reflexivity.
  - intros H. unfold starting_point. simpl.
    apply Nat.ltb_lt in H. rewrite H. reflexivity.
  - intros start array start' e Hs He.
    rewrite minimize_unfold, Hs. cbn [bind]. rewrite He. reflexivity.
Qed.

(** C8: when [minimize] returns, the optimizer returned a result for the
    starting point (as given, wrapped, or inferred); if that starting point
    has one item the value returned is the first item of [result.x], else
    it is [result.x] as the optimizer gave it. *)
Theorem minimize_result_shape (f : function) (start : option start_arg)
    (smooth : bool) (log : option (OptimizeResult -> result unit))
    (array : bool) (vargs : kwargs) (v : minimum) :
  minimize optimize_minimize f start smooth log array vargs = Return v ->
  exists (start' : list Q) (res : OptimizeResult),
    starting_point f start array = Return start' /\
    optimize_minimize (objective f array) start' (default_method smooth vargs)
    = Return res /\
    (List.length start' = 1%nat ->
     exists q rest, x res = q :: rest /\ v = Item q) /\
    (List.length start' <> 1%nat -> v = Array (x res)).
Proof.
  rewrite minimize_unfold. intros H.
  destruct (starting_point f start array) as [start'|] eqn:Es; [|discriminate].
  cbn [bind] in H.
  destruct (optimize_minimize _ _ _) as [res|] eqn:Eo; [|discriminate].
  cbn [bind] in H.
  exists start', res. split; [reflexivity|]. split; [exact Eo|].
  destruct (match log with Some _ => _ | None => _ end); [|discriminate].
  cbn [bind] in H.
  destruct (List.length start' =? 1)%nat eqn:El.
  - apply Nat.eqb_eq in El. split; [|intros Hne; contradiction].
    intros _. destruct (x res) as [|q rest]; [discriminate|].
    exists q, rest. split; [reflexivity|]. simpl in H. congruence.
  - apply Nat.eqb_neq in El. split; [intros Heq; contradiction|].
    intros _. congruence.
Qed.

(** When the optimizer and [log] return and [result.x] is not empty,
    [minimize] returns. *)
Lemma minimize_returns (f : function) (start : option start_arg)
    (smooth : bool) (log : option (OptimizeResult -> result unit))
    (array : bool) (vargs : kwargs) (start' : list Q) (res : OptimizeResult) :
  starting_point f start array = Return start' ->
  optimize_minimize (objective f array) start' (default_method smooth vargs)
  = Return res ->
  match log with Some log => log res | None => Return tt end = Return tt ->
  x res <> [] ->
  exists v, minimize optimize_minimize f start smooth log array vargs = Return v.
Proof.
  intros Hs Ho Hl Hx. rewrite minimize_unfold, Hs. cbn [bind].
  rewrite Ho. cbn [bind]. rewrite Hl. cbn [bind].
  destruct (List.length start' =? 1)%nat; [|eexists; reflexivity].
  destruct (x res); [contradiction | eexists; reflexivity].
Qed.

End MinimizeFacts.

Section MinimizeExamples.
Import Minimize.
Local Open Scope Q_scope.

(** C7, as stated, fails: [lambda x, *rest: x ** 2] is variadic, and
    [minimize] without [start] takes one zero as its starting point and
    returns a number; no AssertionError is raised. *)
Lemma variadic_start_is_inferred :
  co_varargs square_variadic = true /\
  starting_point square_variadic None false = Return [0] /\
  minimize stays_at_start square_variadic None false None false []
  = Return (Item 0) /\
  forall msg,
    minimize stays_at_start square_variadic None false None false []
    <> Raise (AssertionError msg).
Proof.
  repeat split. intros msg. discriminate.
Qed.

Lemma minimize_start_contract_witness :
  minimize stays_at_start only_varargs None false None false []
  = Raise (AssertionError
             "Please pass starting values explicitly for variadic functions") /\
  starting_point sum_of_squares None false = Return [0; 0].
Proof.
  split.
  - destruct (minimize_start_contract stays_at_start only_varargs false None [])
      as [_ [H _]].
    apply H. reflexivity.
  - destruct (minimize_start_contract stays_at_start sum_of_squares false None [])
      as [_ [_ [H _]]].
    apply H. simpl. lia.
Defined.

Lemma minimize_result_shape_witness :
  exists (start' : list Q) (res : OptimizeResult),
    starting_point sum_of_squares None false = Return start' /\
    stays_at_start (objective sum_of_squares false) start'
                   (default_method false []) = Return res /\
    (List.length start' = 1%nat ->
     exists q rest, x res = q :: rest /\ Array [0; 0] = Item q) /\
    (List.length start' <> 1%nat -> Array [0; 0] = Array (x res)).
Proof.
  apply (minimize_result_shape stays_at_start sum_of_squares None false None
           false [] (Array [0; 0])).
  reflexivity.
Defined.
End MinimizeExamples.

Section PercentileFloatFacts.
Import Builtins Binary64 PercentileFloat.
Local Open Scope Q_scope.

Lemma getitem_last {A : Type} (l : list A) :
  l <> [] ->
  exists a, py_getitem l (-1) = Return a /\
            nth_error l (Z.to_nat (len l - 1)) = Some a.
Proof.
  intros Hne.
  assert (Hn : (1 <= len l)%Z).
  { destruct l; [contradiction | unfold len; simpl; lia]. }
  unfold py_getitem. change (-1 <? 0)%Z with true. cbv iota.
  replace (-1 + len l)%Z with (len l - 1)%Z by lia.
  destruct (len l - 1 <? 0)%Z eqn:E; [apply Z.ltb_lt in E; lia|].
  destruct (len l <=? len l - 1)%Z eqn:E'; [apply Z.leb_le in E'; lia|].
  simpl. destruct (nth_error l (Z.to_nat (len l - 1))) as [a|] eqn:En.
  - exists a. split; reflexivity.
  - apply nth_error_None in En. unfold len in *. lia.
Qed.

(** The rank lies between 0 and the number of items. *)
Lemma rank_bounds_float (p : Q) (n : Z) :
  0 < p -> p <= 100 -> (0 <= n < 2 ^ 53)%Z -> (0 <= rank p n <= n)%Z.
Proof.
  intros Hp Hp' Hn. unfold rank, fmul, fdiv, of_int.
  assert (Ep : p / 100 == p * (1 # 100)) by reflexivity.
  assert (H53 : inject_Z n < pow2 53).
  { rewrite (pow2_int 53) by lia. rewrite <- Zlt_Qlt. lia. }
  assert (Hn0 : 0 <= inject_Z n).
  { change 0 with (inject_Z 0). rewrite <- Zle_Qle. lia. }
  assert (H1 : 1 < pow2 53) by reflexivity.
  assert (Hq0 : 0 <= round (p / 100)) by (apply round_nonneg; lra).
  assert (Hq1 : round (p / 100) <= 1).
  { apply (round_le_int (p / 100) 1); [lia | change (inject_Z 1) with 1; lra |].
    apply Qle_lt_trans with 1; [lra | exact H1]. }
  assert (Hf0 : 0 <= round (inject_Z n)) by (apply round_nonneg; exact Hn0).
  assert (Hf1 : round (inject_Z n) <= inject_Z n).
  { apply round_le_int; [lia | apply Qle_refl | exact H53]. }
  set (q := round (p / 100)) in *. set (f := round (inject_Z n)) in *.
  assert (Hx0 : 0 <= q * f) by (apply Qmult_le_0_compat; assumption).
  assert (Hx1 : q * f <= inject_Z n).
  { apply Qle_trans with (1 * f); [apply Qmult_le_compat_r; assumption | lra]. }
  assert (Hr0 : 0 <= round (q * f)) by (apply round_nonneg; exact Hx0).
  assert (Hr1 : round (q * f) <= inject_Z n).
  { apply round_le_int; [lia | exact Hx1 |].
    apply Qle_lt_trans with (inject_Z n); assumption. }
  split.
  - pose proof (Qle_ceiling (round (q * f))) as Hc.
    assert (Hc' : inject_Z (-1) < inject_Z (Qceiling (round (q * f)))).
    { change (inject_Z (-1)) with (-1). lra. }
    rewrite <- Zlt_Qlt in Hc'. lia.
  - apply Z.le_trans with (Qceiling (inject_Z n));
      [apply Qceiling_resp_le, Hr1 | rewrite Qceiling_Z; lia].
Qed.

Lemma percentile_float_PNum (p : Q) (arr : list Q) :
  percentile (PNum p) (Some arr) = (v <- percentile_num p arr ;; Return (VNum v)).
Proof. reflexivity. Qed.

(** Lines 40-41 for [0 < p <= 100]: the index into the sorted copy. *)
Lemma float_index (p : Q) (arr : list Q) :
  arr <> [] -> (len arr < 2 ^ 53)%Z -> 0 < p -> p <= 100 ->
  let k := rank p (len arr) in
  (0 <= k <= len arr)%Z /\
  exists v, percentile_num p arr = Return v /\
            py_getitem (sorted arr) (k - 1) = Return v /\
            nth_error (sorted arr)
              (Z.to_nat (if (k =? 0)%Z then len arr - 1 else k - 1))
            = Some v.
Proof.
  intros Hne Hlen Hp Hp' k.
  assert (Hn : (1 <= len arr)%Z).
  { destruct arr; [contradiction | unfold len; simpl; lia]. }
  assert (Hk : (0 <= k <= len arr)%Z).
  { apply rank_bounds_float; [exact Hp | exact Hp' | lia]. }
  split; [exact Hk|].
  assert (E : percentile_num p arr = py_getitem (sorted arr) (k - 1)).
  { unfold percentile_num.
    destruct (Qeq_bool p 0) eqn:E0.
    { apply Qeq_bool_iff in E0. lra. }
    apply Qltb_lt in Hp. apply Qle_bool_iff in Hp'. rewrite Hp, Hp'.
    reflexivity. }
  rewrite E.
  destruct (k =? 0)%Z eqn:Ek.
  + apply Z.eqb_eq in Ek. rewrite Ek. simpl Z.sub.
    destruct (getitem_last (sorted arr)) as [v [Hv Hnth]].
    { intros Hs. pose proof (sorted_len arr) as Hl. rewrite Hs in Hl.
      unfold len in Hl at 1. simpl in Hl. lia. }
    rewrite sorted_len in Hnth.
    exists v. rewrite Hv. auto.
  + apply Z.eqb_neq in Ek.
    destruct (getitem_in_range (sorted arr) (k - 1)) as [v [Hv Hnth]].
    { rewrite sorted_len. lia. }
    exists v. rewrite Hv. auto.
Qed.




End PercentileFloatFacts.

Section PercentileHeapFacts.
Import Builtins Binary64 PercentileHeap.
Local Open Scope Q_scope.

Lemma parg_induction (Q : parg -> Prop) :
  (forall q, Q (PNum q)) ->
  (forall ps, Forall Q ps -> Q (PSeq ps)) ->
  forall P, Q P.
Proof.
  intros HN HS. fix IH 1. intros [q|ps]; [apply HN|].
  apply HS. induction ps as [|P ps IHps]; constructor; [apply IH | exact IHps].
Qed.

Lemma pyval_induction (Q : pyval -> Prop) :
  (forall q, Q (VNum q)) ->
  (forall vs, Forall Q vs -> Q (VArray vs)) ->
  (forall P, Q (VLambda P)) ->
  forall V, Q V.
Proof.
  intros HN HA HL. fix IH 1. intros [q|vs|P]; [apply HN| |apply HL].
  apply HA. induction vs as [|V vs IHvs]; constructor; [apply IH | exact IHvs].
Qed.

Lemma extends_refl (h : heap) : extends h h.
Proof. exists []. symmetry. apply app_nil_r. Qed.

Lemma extends_trans (h1 h2 h3 : heap) :
  extends h1 h2 -> extends h2 h3 -> extends h1 h3.
Proof.
  intros [n1 ->] [n2 ->]. exists (n1 ++ n2)%list. symmetry. apply app_assoc.
Qed.

Lemma extends_alloc (o : object) (h : heap) : extends h (snd (alloc o h)).
Proof. exists [o]. reflexivity. Qed.

Lemma deref_extends (h h' : heap) (l : loc) (o : object) :
  extends h h' -> deref h l = Some o -> deref h' l = Some o.
Proof.
  intros [new ->] H. unfold deref in *.
  rewrite nth_error_app1; [exact H|].
  apply nth_error_Some. congruence.
Qed.

Lemma deref_alloc (o : object) (h : heap) :
  deref (snd (alloc o h)) (fst (alloc o h)) = Some o.
Proof.
  unfold deref, alloc. simpl.
  rewrite nth_error_app2 by lia. rewrite Nat.sub_diag. reflexivity.
Qed.

Lemma iter_extends (h h' : heap) (v : val) (items : list val) :
  extends h h' -> iter h v = Some items -> iter h' v = Some items.
Proof.
  intros He. destruct v as [|q|l]; simpl; try discriminate.
  destruct (deref h l) as [o|] eqn:E; [|discriminate].
  rewrite (deref_extends h h' l o He E). trivial.
Qed.

Lemma reads_p_extends (h h' : heap) :
  extends h h' -> forall P v, reads_p h v P -> reads_p h' v P.
Proof.
  intros He P. induction P as [q|ps IH] using parg_induction; intros v H.
  - inversion H; subst. constructor.
  - inversion H as [|v' items ps' Hi Hf]; subst.
    apply reads_PSeq with items; [eapply iter_extends; eassumption|].
    clear Hi H. revert IH. induction Hf as [|x P items ps Hx Hf IHf]; intros IH.
    + constructor.
    + inversion IH; subst. constructor; auto.
Qed.

Lemma reads_arr_extends (h h' : heap) (arr : val) (a : option (list Q)) :
  extends h h' -> reads_arr h arr a -> reads_arr h' arr a.
Proof.
  intros He. destruct a as [a|]; simpl; [|trivial].
  apply iter_extends, He.
Qed.

Lemma reads_val_extends (h h' : heap) :
  extends h h' -> forall V v, reads_val h v V -> reads_val h' v V.
Proof.
  intros He V. induction V as [q|vs IH|P] using pyval_induction; intros v H.
  - inversion H; subst. constructor.
  - inversion H as [|l items vs' Hd Hf|]; subst.
    apply reads_VArray with items; [eapply deref_extends; eassumption|].
    clear Hd H. revert IH. induction Hf as [|x V items vs Hx Hf IHf]; intros IH.
    + constructor.
    + inversion IH; subst. constructor; auto.
  - inversion H as [| |l p P' Hd Hp]; subst.
    apply reads_VLambda with p; [eapply deref_extends; eassumption|].
    eapply reads_p_extends; eassumption.
Qed.

Lemma numbers_reads (h : heap) (arr : val) (a : list Q) :
  reads_arr h arr (Some a) -> numbers h arr = Return a.
Proof.
  unfold numbers. simpl. intros ->.
  induction a as [|x a IH]; simpl; [reflexivity|]. rewrite IH. reflexivity.
Qed.

(** The heap after a comprehension, when each call only adds objects. *)
Lemma comprehension_in_extends {A B : Type}
    (f : A -> heap -> result B * heap) :
  (forall x h, extends h (snd (f x h))) ->
  forall xs h, extends h (snd (comprehension_in f xs h)).
Proof.
  intros Hf xs. induction xs as [|x xs IH]; intros h; simpl.
  - apply extends_refl.
  - specialize (Hf x h). destruct (f x h) as [[y|e] h1]; simpl in Hf; [|exact Hf].
    specialize (IH h1). destruct (comprehension_in f xs h1) as [[ys|e] h2];
      simpl in *; eapply extends_trans; eassumption.
Qed.

(** A call of [percentile] changes no object: it only adds new ones,
    whatever the arguments are and whether it returns or raises. *)
Lemma percentile_extends (depth : nat) :
  forall p arr h, extends h (snd (percentile depth p arr h)).
Proof.
  induction depth as [|depth IH]; intros p arr h; [apply extends_refl|].
  assert (Hseq : forall items,
             extends h (snd (match comprehension_in
                                     (fun x => percentile depth x arr) items h with
                             | (Return vs, h1) =>
                                 let (a, h2) := alloc (OArray vs) h1 in
                                 (Return (HRef a), h2)
                             | (Raise e, h1) => (Raise e, h1)
                             end))).
  { intros items.
    pose proof (comprehension_in_extends (fun x => percentile depth x arr)
                  (fun x h => IH x arr h) items h) as H.
    destruct (comprehension_in _ items h) as [[vs|e] h1]; simpl in *; [|exact H].
    eapply extends_trans; [exact H|]. apply (extends_alloc (OArray vs)). }
  assert (Hnum : extends h (snd (
             match iter h p with
             | Some items =>
                 match comprehension_in (fun x => percentile depth x arr) items h with
                 | (Return vs, h1) =>
                     let (a, h2) := alloc (OArray vs) h1 in (Return (HRef a), h2)
                 | (Raise e, h1) => (Raise e, h1)
                 end
             | None =>
                 match p with
                 | HNum q =>
                     if Qeq_bool q 0
                     then (arr <- numbers h arr ;;
                           v <- py_min arr ;; Return (HNum v), h)
                     else (_ <- py_assert (Qltb 0 q && Qle_bool q 100)
                                          "Percentile requires a percent" ;;
                           arr <- numbers h arr ;;
                           let i := fmul (fdiv q 100) (of_int (len arr)) in
                           v <- py_getitem (sorted arr) (Qceiling i - 1) ;;
                           Return (HNum v), h)
                 | _ =>
                     (Raise (TypeError ("'<' not supported between instances of 'int' and '"
                                        ++ type_name h p ++ "'")), h)
                 end
             end))).
  { destruct (iter h p) as [items|]; [apply Hseq|].
    destruct p as [|q|l]; try apply extends_refl.
    destruct (Qeq_bool q 0); apply extends_refl. }
  destruct arr as [|a|a]; [apply (extends_alloc (OLambda p)) | exact Hnum | exact Hnum].
Qed.

Lemma call_extends (depth : nat) (g arr : val) (h : heap) :
  extends h (snd (call depth g arr h)).
Proof.
  destruct depth as [|depth]; [apply extends_refl|]. simpl.
  destruct g as [|q|l]; try apply extends_refl.
  destruct (deref h l) as [[items|items|p]|]; try apply extends_refl.
  apply percentile_extends.
Qed.


(** Line 34: a new function object that holds [p]; nothing else changes. *)
Lemma percentile_creates (depth : nat) (p : val) (h : heap) :
  percentile (S depth) p HNone h
  = (Return (HRef (List.length h)), (h ++ [OLambda p])%list).
Proof. reflexivity. Qed.

(** Lines 37-41, when [arr] holds the numbers [a]. *)
Lemma percentile_number (depth : nat) (q : Q) (arr : val) (a : list Q) (h : heap) :
  reads_arr h arr (Some a) ->
  percentile (S depth) (HNum q) arr h
  = (v <- PercentileFloat.percentile_num q a ;; Return (HNum v), h).
Proof.
  intros Ha. pose proof (numbers_reads h arr a Ha) as Hn.
  destruct arr as [|x|l]; try discriminate Ha.
  cbn [percentile iter]. rewrite Hn. unfold PercentileFloat.percentile_num.
  destruct (Qeq_bool q 0); [reflexivity|].
  destruct (py_assert _ _) as [[]|e]; reflexivity.
Qed.

Lemma nesting_items (ps : list parg) (d : nat) :
  (nesting (PSeq ps) <= S d)%nat -> Forall (fun P => (nesting P <= d)%nat) ps.
Proof.
  simpl. intros H. apply le_S_n in H.
  induction ps as [|P ps IH]; constructor; simpl in H; [lia|].
  apply IH. lia.
Qed.

Lemma comprehension_reads (d : nat) (arr : val) (a : list Q) (h0 : heap) :
  reads_arr h0 arr (Some a) ->
  forall items ps,
    Forall2 (reads_p h0) items ps ->
    Forall (refines arr a) ps ->
    Forall (fun P => (nesting P <= d)%nat) ps ->
    forall h, extends h0 h ->
    exists r h',
      comprehension_in (fun x => percentile d x arr) items h = (r, h') /\
      extends h h' /\
      match r, comprehension (fun x => PercentileFloat.percentile_arr x a) ps with
      | Return vs, Return Vs => Forall2 (reads_val h') vs Vs
      | Raise e, Raise e' => e = e'
      | _, _ => False
      end.
Proof.
  intros Ha items ps Hf.
  induction Hf as [|x P items ps Hx Hf IH]; intros Hr Hd h He.
  - exists (Return []), h. repeat split; [apply extends_refl | constructor].
  - inversion Hr as [|? ? HP Hr']; subst. inversion Hd as [|? ? HdP Hd']; subst.
    destruct (HP d x h) as [r1 [h1 [E1 [He1 R1]]]];
      [eapply reads_p_extends; eassumption
      |eapply reads_arr_extends; eassumption
      |exact HdP|].
    cbn [comprehension_in comprehension]. rewrite E1.
    destruct r1 as [y|e];
      destruct (PercentileFloat.percentile_arr P a) as [Y|e'];
      simpl in R1; try contradiction.
    + destruct (IH Hr' Hd' h1 (extends_trans _ _ _ He He1))
        as [r2 [h2 [E2 [He2 R2]]]].
      rewrite E2.
      destruct r2 as [ys|e];
        destruct (comprehension _ ps) as [Ys|e']; try contradiction.
      * exists (Return (y :: ys)), h2. split; [reflexivity|].
        split; [eapply extends_trans; eassumption|].
        simpl. constructor; [|exact R2].
        eapply reads_val_extends; eassumption.
      * exists (Raise e), h2. split; [reflexivity|].
        split; [eapply extends_trans; eassumption | exact R2].
    + exists (Raise e), h1. split; [reflexivity|]. split; [exact He1 | exact R1].
Qed.

(** With [arr] given, the result is what the numbers in [p] and [arr]
    make it: the heap takes no other part. *)
Lemma percentile_refines (arr : val) (a : list Q) : forall P, refines arr a P.
Proof.
  induction P as [q|ps IH] using parg_induction;
    intros depth p h Hp Ha Hd.
  - inversion Hp; subst. destruct depth as [|depth]; [simpl in Hd; lia|].
    rewrite (percentile_number depth q arr a h Ha).
    eexists. exists h. split; [reflexivity|]. split; [apply extends_refl|].
    cbn [PercentileFloat.percentile_arr].
    destruct (PercentileFloat.percentile_num q a); simpl; [constructor | reflexivity].
  - inversion Hp as [|p' items ps' Hi Hf]; subst.
    destruct depth as [|depth]; [simpl in Hd; lia|].
    destruct (comprehension_reads depth arr a h Ha items ps Hf IH
                (nesting_items ps depth Hd) h (extends_refl h))
      as [r [h1 [E [He R]]]].
    assert (Hperc : percentile (S depth) p arr h
                    = match comprehension_in (fun x => percentile depth x arr) items h with
                      | (Return vs, h1) =>
                          let (a, h2) := alloc (OArray vs) h1 in (Return (HRef a), h2)
                      | (Raise e, h1) => (Raise e, h1)
                      end).
    { destruct arr as [|x|l]; try discriminate Ha.
      cbn [percentile]. rewrite Hi. reflexivity. }
    rewrite Hperc, E. cbn [PercentileFloat.percentile_arr].
    destruct r as [vs|e];
      destruct (comprehension _ ps) as [Vs|e']; try contradiction.
    + exists (Return (HRef (List.length h1))), (h1 ++ [OArray vs])%list.
      split; [reflexivity|].
      split; [eapply extends_trans; [exact He | apply (extends_alloc (OArray vs))]|].
      simpl. apply reads_VArray with vs; [apply (deref_alloc (OArray vs) h1)|].
      eapply Forall2_impl; [|exact R].
      intros v V. apply reads_val_extends, (extends_alloc (OArray vs)).
    + exists (Raise e), h1. split; [reflexivity|]. split; [exact He | exact R].
Qed.


Lemma call_lambda (depth : nat) (l : loc) (p arr : val) (h : heap) :
  deref h l = Some (OLambda p) ->
  call (S depth) (HRef l) arr h = percentile depth p arr h.
Proof. intros H. simpl. rewrite H. reflexivity. Qed.

(** The doctest's [f = percentile(75); f([1, 3, 5, 9])], with the list in
    the heap: the function is a new object, the call returns 5 and leaves
    the heap as it found it. *)
Example curried_call_in_heap :
  let h := [OList [HNum 1; HNum 3; HNum 5; HNum 9]] in
  percentile 2 (HNum 75) HNone h
  = (Return (HRef 1), [OList [HNum 1; HNum 3; HNum 5; HNum 9]; OLambda (HNum 75)]) /\
  call 2 (HRef 1) (HRef 0) (snd (percentile 2 (HNum 75) HNone h))
  = (Return (HNum 5), snd (percentile 2 (HNum 75) HNone h)).
Proof. split; vm_compute; reflexivity. Qed.

(** Nothing is kept from one call for the next: with a list of percents
    the function makes a new array each time, with the same items. *)
Example curried_call_twice :
  let h := [OList [HNum 1; HNum 3; HNum 5; HNum 9]; OList [HNum 50; HNum 75];
            OLambda (HRef 1)] in
  call 3 (HRef 2) (HRef 0) h
  = (Return (HRef 3), (h ++ [OArray [HNum 3; HNum 5]])%list) /\
  call 3 (HRef 2) (HRef 0) (snd (call 3 (HRef 2) (HRef 0) h))
  = (Return (HRef 4),
     (h ++ [OArray [HNum 3; HNum 5]; OArray [HNum 3; HNum 5]])%list).
Proof. split; vm_compute; reflexivity. Qed.

(** The function holds the object [p], not a copy of it: when the caller
    changes an item of the list [p], the function gives what
    [percentile(p, arr)] gives for the list as it then is. *)
Example curried_function_holds_p_by_reference :
  let arr := OList [HNum 1; HNum 3; HNum 5; HNum 9] in
  fst (call 3 (HRef 2) (HRef 0) [arr; OList [HNum 50]; OLambda (HRef 1)])
  = Return (HRef 3) /\
  deref (snd (call 3 (HRef 2) (HRef 0) [arr; OList [HNum 50]; OLambda (HRef 1)])) 3
  = Some (OArray [HNum 3]) /\
  deref (snd (call 3 (HRef 2) (HRef 0) [arr; OList [HNum 100]; OLambda (HRef 1)])) 3
  = Some (OArray [HNum 9]).
Proof. repeat split; vm_compute; reflexivity. Qed.

(** C3: [percentile(p)], with [arr] omitted, returns a new function object
    [g] that holds [p], and changes no object.  In every later heap
    [g(arr)] is the call [percentile(p, arr)] made from the body of [g],
    for every [arr].  The functions are stateless and independent: a call
    of [g], or of any other object, changes no object of the heap, whether
    it returns or raises; when [p] holds the percents [P] and [arr] the
    numbers [a], and the interpreter allows the calls that [P] nests,
    [g(arr)] returns and its result holds [percentile(P, a)], also after
    any other call was made in between; and a function made later is
    another object, which leaves [g] as it is. *)
Theorem percentile_curried (depth : nat) (p : val) (h : heap) :
  let g := HRef (List.length h) in
  let h0 := (h ++ [OLambda p])%list in
  percentile (S depth) p HNone h = (Return g, h0) /\
  (forall h' arr, extends h0 h' ->
     call (S depth) g arr h' = percentile depth p arr h') /\
  (forall d f arr h', extends h' (snd (call d f arr h'))) /\
  (forall h' P arr a d f arr',
     extends h0 h' -> reads_p h' p P -> reads_arr h' arr (Some a) ->
     (nesting P <= depth)%nat ->
     let h'' := snd (call d f arr' h') in
     exists r hr,
       call (S depth) g arr h'' = (r, hr) /\
       reads_result hr r (PercentileFloat.percentile P (Some a))) /\
  (forall h' d p', extends h0 h' ->
     exists g' hg,
       percentile (S d) p' HNone h' = (Return (HRef g'), hg) /\
       HRef g' <> g /\
       deref hg (List.length h) = Some (OLambda p)).
Proof.
  intros g h0.
  assert (Hg : forall h', extends h0 h' -> deref h' (List.length h) = Some (OLambda p)).
  { intros h' He. apply (deref_extends h0 h' _ _ He).
    apply (deref_alloc (OLambda p) h). }
  split; [reflexivity|]. split; [|split; [|split]].
  - intros h' arr He. apply call_lambda, Hg, He.
  - intros d f arr h'. apply call_extends.
  - intros h' P arr a d f arr' He Hp Ha Hd h''.
    assert (He' : extends h' h'') by apply call_extends.
    unfold g.
    rewrite (call_lambda depth (List.length h) p arr h'')
      by (apply Hg; eapply extends_trans; eassumption).
    destruct (percentile_refines arr a P depth p h'') as [r [hr [E [_ R]]]].
    + eapply reads_p_extends; eassumption.
    + eapply reads_arr_extends; eassumption.
    + exact Hd.
    + exists r, hr. split; [exact E | exact R].
  - intros h' d p' He. exists (List.length h'), (h' ++ [OLambda p'])%list.
    split; [reflexivity|]. split.
    + destruct He as [new ->]. unfold g, h0. rewrite !length_app. simpl.
      intros [= H]. lia.
    + apply Hg. eapply extends_trans; [exact He|]. apply (extends_alloc (OLambda p')).
Qed.

Lemma percentile_curried_witness :
  let arr := OList [HNum 1; HNum 3; HNum 5; HNum 9] in
  exists r hr,
    call 2 (HRef 1) (HRef 0)
         (snd (call 2 (HRef 1) (HRef 0) [arr; OLambda (HNum 75)])) = (r, hr) /\
    reads_result hr r (PercentileFloat.percentile (PNum 75) (Some [1; 3; 5; 9])).
Proof.
  intros arr.
  destruct (percentile_curried 1 (HNum 75) [arr]) as [_ [_ [_ [H _]]]].
  apply (H [arr; OLambda (HNum 75)] (PNum 75) (HRef 0) [1; 3; 5; 9]
           2%nat (HRef 1) (HRef 0)).
  - exists []. reflexivity.
  - constructor.
  - reflexivity.
  - simpl. lia.
Defined.

End PercentileHeapFacts.

(** * Further properties *)

Section PercentileRank.
Import Builtins Percentile.
Local Open Scope Q_scope.

Lemma count_le_perm (v : Q) (l l' : list Q) :
  Permutation l l' -> count_le v l = count_le v l'.
Proof.
  unfold count_le.
  induction 1 as [|x l l' _ IH|x y l|l l' l'' _ IH1 _ IH2]; simpl.
  - reflexivity.
  - destruct (Qle_bool x v); simpl; congruence.
  - destruct (Qle_bool x v), (Qle_bool y v); reflexivity.
  - congruence.
Qed.

(** In an ascending list the items up to position [i] are at most the
    item at [i] ... *)
Lemma ascending_count_ge (l : list Q) :
  StronglySorted Qle l ->
  forall (i : nat) (v : Q), nth_error l i = Some v -> (i < count_le v l)%nat.
Proof.
  unfold count_le.
  induction 1 as [|y l Hs IH Hy]; intros i v Hi; [destruct i; discriminate|].
  destruct i as [|i]; simpl in *.
  - injection Hi as <-.
    replace (Qle_bool y y) with true
      by (symmetry; apply Qle_bool_iff, Qle_refl).
    simpl. lia.
  - assert (Hyv : y <= v).
    { rewrite Forall_forall in Hy. apply Hy. eapply nth_error_In; eassumption. }
    apply Qle_bool_iff in Hyv. rewrite Hyv. simpl.
    specialize (IH i v Hi). lia.
Qed.

(** ... and an item smaller than the item at [i] has at most [i] items
    at or below it. *)
Lemma ascending_count_le (l : list Q) :
  StronglySorted Qle l ->
  forall (i : nat) (v w : Q),
    nth_error l i = Some v -> w < v -> (count_le w l <= i)%nat.
Proof.
  unfold count_le.
  induction 1 as [|y l Hs IH Hy]; intros i v w Hi Hw; [destruct i; discriminate|].
  destruct i as [|i]; simpl in *.
  - injection Hi as <-.
    assert (E : Qle_bool y w = false).
    { apply not_true_iff_false. rewrite Qle_bool_iff. apply Qlt_not_le, Hw. }
    rewrite E.
    assert (E' : filter (fun z => Qle_bool z w) l = []).
    { clear IH Hs. induction Hy as [|z l Hz Hl IHl]; simpl; [reflexivity|].
      replace (Qle_bool z w) with false; [exact IHl|].
      symmetry. apply not_true_iff_false. rewrite Qle_bool_iff.
      apply Qlt_not_le. eapply Qlt_le_trans; eassumption. }
    rewrite E'. simpl. lia.
  - specialize (IH i v w Hi Hw).
    destruct (Qle_bool y w); simpl; lia.
Qed.

(** At least [p] percent of the items are at most the result. *)
Lemma percentile_num_covers (p : Q) (arr : list Q) (v : Q) :
  arr <> [] -> 0 < p -> p <= 100 ->
  percentile_num p arr = Return v ->
  (p / 100) * inject_Z (len arr) <= inject_Z (Z.of_nat (count_le v arr)).
Proof.
  intros Hne Hp Hp' Hv.
  destruct (percentile_num_rank p arr Hne Hp Hp') as [Hk [v' [Hv' Hnth]]].
  assert (v' = v) by congruence. subst v'.
  pose proof (ascending_count_ge _ (sorted_ascending arr) _ _ Hnth) as Hc.
  rewrite <- (count_le_perm v _ _ (sorted_perm arr)) in Hc.
  eapply Qle_trans; [apply Qle_ceiling|].
  rewrite <- Zle_Qle. lia.
Qed.

(** No smaller number has [p] percent of the items at or below it. *)
Lemma percentile_num_least (p : Q) (arr : list Q) (v w : Q) :
  arr <> [] -> 0 < p -> p <= 100 ->
  percentile_num p arr = Return v ->
  (p / 100) * inject_Z (len arr) <= inject_Z (Z.of_nat (count_le w arr)) ->
  v <= w.
Proof.
  intros Hne Hp Hp' Hv Hw.
  destruct (percentile_num_rank p arr Hne Hp Hp') as [Hk [v' [Hv' Hnth]]].
  assert (v' = v) by congruence. subst v'.
  destruct (Qlt_le_dec w v) as [Hlt|Hle]; [exfalso | exact Hle].
  pose proof (ascending_count_le _ (sorted_ascending arr) _ _ _ Hnth Hlt) as Hc.
  rewrite <- (count_le_perm w _ _ (sorted_perm arr)) in Hc.
  pose proof (Qceiling_lt ((p / 100) * inject_Z (len arr))) as Hceil.
  assert (Hcw : inject_Z (Z.of_nat (count_le w arr))
                <= inject_Z (Qceiling ((p / 100) * inject_Z (len arr)) - 1)).
  { rewrite <- Zle_Qle. lia. }
  lra.
Qed.

Lemma percentile_PNum_Return (p : Q) (arr : list Q) (v : Q) :
  percentile (PNum p) (Some arr) = Return (VNum v) <->
  percentile_num p arr = Return v.
Proof.
  rewrite percentile_PNum. destruct (percentile_num p arr); simpl.
  - split; congruence.
  - split; discriminate.
Qed.

Lemma percentile_num_defined (p : Q) (arr : list Q) :
  arr <> [] -> 0 <= p -> p <= 100 -> exists v, percentile_num p arr = Return v.
Proof.
  intros Hne Hp Hp'. destruct (Qeq_dec p 0) as [E|E].
  - rewrite (percentile_num_zero p arr E).
    destruct arr; [contradiction | eexists; reflexivity].
  - assert (Hpos : 0 < p).
    { apply Qle_lteq in Hp. destruct Hp as [Hp|Hp]; [exact Hp|].
      symmetry in Hp. contradiction. }
    destruct (percentile_num_rank p arr Hne Hpos Hp') as [_ [v [Hv _]]].
    exists v. exact Hv.
Qed.

Lemma py_min_spec (arr : list Q) (m : Q) :
  py_min arr = Return m -> In m arr /\ forall y, In y arr -> m <= y.
Proof.
  destruct arr as [|x l]; simpl; [discriminate|].
  intros [= <-]. apply (fold_min_spec l x).
Qed.

Lemma count_le_In (v : Q) (arr : list Q) :
  In v arr -> (1 <= count_le v arr)%nat.
Proof.
  unfold count_le. induction arr as [|y arr IH]; simpl; [contradiction|].
  intros [->|H].
  - replace (Qle_bool v v) with true
      by (symmetry; apply Qle_bool_iff, Qle_refl).
    simpl. lia.
  - specialize (IH H). destruct (Qle_bool y v); simpl; lia.
Qed.

Lemma pos_of_nonzero (p : Q) : 0 <= p -> ~ p == 0 -> 0 < p.
Proof.
  intros Hp E. apply Qle_lteq in Hp. destruct Hp as [Hp|Hp]; [exact Hp|].
  symmetry in Hp. contradiction.
Qed.

(** X4: the order of the items does not matter: on a rearrangement of a
    non-empty array [percentile] returns an equal ([==]) number. *)
Theorem percentile_order_independent (p : Q) (arr arr' : list Q) :
  arr <> [] -> Permutation arr arr' -> 0 <= p -> p <= 100 ->
  exists v v',
    percentile (PNum p) (Some arr) = Return (VNum v) /\
    percentile (PNum p) (Some arr') = Return (VNum v') /\
    v == v'.
Proof.
  intros Hne Hperm Hp Hp'.
  assert (Hne' : arr' <> []).
  { intros ->. apply Permutation_sym, Permutation_nil in Hperm. contradiction. }
  assert (Hlen : len arr = len arr').
  { unfold len. f_equal. apply Permutation_length, Hperm. }
  destruct (percentile_num_defined p arr Hne Hp Hp') as [v Hv].
  destruct (percentile_num_defined p arr' Hne' Hp Hp') as [v' Hv'].
  exists v, v'. rewrite !percentile_PNum_Return.
  split; [exact Hv|]. split; [exact Hv'|].
  destruct (Qeq_dec p 0) as [E|E].
  - rewrite (percentile_num_zero p arr E) in Hv.
    rewrite (percentile_num_zero p arr' E) in Hv'.
    apply py_min_spec in Hv, Hv'. destruct Hv as [Hin Hle], Hv' as [Hin' Hle'].
    apply Qle_antisym.
    + apply Hle. eapply Permutation_in; [symmetry; exact Hperm | exact Hin'].
    + apply Hle'. eapply Permutation_in; [exact Hperm | exact Hin].
  - pose proof (pos_of_nonzero p Hp E) as Hp0.
    pose proof (percentile_num_covers p arr v Hne Hp0 Hp' Hv) as Hc.
    pose proof (percentile_num_covers p arr' v' Hne' Hp0 Hp' Hv') as Hc'.
    apply Qle_antisym.
    + apply (percentile_num_least p arr v v' Hne Hp0 Hp' Hv).
      rewrite Hlen, (count_le_perm v' _ _ Hperm). exact Hc'.
    + apply (percentile_num_least p arr' v' v Hne' Hp0 Hp' Hv').
      rewrite <- Hlen, <- (count_le_perm v _ _ Hperm). exact Hc.
Qed.

Lemma percentile_order_independent_witness :
  exists v v',
    percentile (PNum 60) (Some [9; 1; 5; 3]) = Return (VNum v) /\
    percentile (PNum 60) (Some [1; 9; 5; 3]) = Return (VNum v') /\
    v == v'.
Proof.
  apply (percentile_order_independent 60 [9; 1; 5; 3] [1; 9; 5; 3]).
  - discriminate.
  - apply perm_swap.
  - discriminate.
  - discriminate.
Defined.

End PercentileRank.

Section PercentileEdges.
Import Builtins Percentile.
Local Open Scope Q_scope.

Lemma comprehension_Return {A B : Type} (f : A -> result B)
    (xs : list A) (ys : list B) :
  comprehension f xs = Return ys <-> Forall2 (fun x y => f x = Return y) xs ys.
Proof.
  revert ys. induction xs as [|x xs IH]; intros ys; simpl.
  - split.
    + intros [= <-]. constructor.
    + intros H. inversion H. reflexivity.
  - destruct (f x) as [y|e] eqn:Ex; simpl.
    + destruct (comprehension f xs) as [ys'|e] eqn:Exs; simpl.
      * split.
        -- intros [= <-]. constructor; [exact Ex | apply IH; reflexivity].
        -- intros H. inversion H as [|x0 y0 xs0 ys0 Hy Hys]; subst.
           apply IH in Hys. congruence.
      * split; [discriminate|].
        intros H. inversion H as [|x0 y0 xs0 ys0 Hy Hys]; subst.
        apply IH in Hys. discriminate.
    + split; [discriminate|].
      intros H. inversion H; subst. congruence.
Qed.

Lemma comprehension_Raise {A B : Type} (f : A -> result B)
    (xs : list A) (e : exn) :
  comprehension f xs = Raise e <->
  exists pre x post ys,
    xs = (pre ++ x :: post)%list /\
    Forall2 (fun x y => f x = Return y) pre ys /\ f x = Raise e.
Proof.
  induction xs as [|x xs IH]; simpl.
  - split; [discriminate|].
    intros [pre [x [post [ys [H _]]]]]. destruct pre; discriminate.
  - split.
    + destruct (f x) as [y|e'] eqn:Ex; simpl.
      * destruct (comprehension f xs) as [ys'|e''] eqn:Exs; simpl;
          [discriminate|].
        intros [= ->].
        destruct (proj1 IH eq_refl) as [pre [x' [post [ys [-> [Hpre Hx]]]]]].
        exists (x :: pre), x', post, (y :: ys).
        split; [reflexivity|]. split; [constructor; assumption | exact Hx].
      * intros [= ->]. exists [], x, xs, []. split; [reflexivity|].
        split; [constructor | exact Ex].
    + intros [pre [x' [post [ys [H [Hpre Hx]]]]]].
      destruct pre as [|a pre]; simpl in H; injection H as -> ->.
      * rewrite Hx. reflexivity.
      * inversion Hpre as [|a0 y0 pre0 ys0 Ha Hpre']; subst.
        rewrite Ha. simpl.
        assert (Hr : comprehension f (pre ++ x' :: post) = Raise e).
        { apply IH. exists pre, x', post, ys0. auto. }
        rewrite Hr. reflexivity.
Qed.

Lemma percentile_PSeq (ps : list parg) (arr : list Q) :
  percentile (PSeq ps) (Some arr)
  = (vs <- comprehension (fun x => percentile x (Some arr)) ps ;;
     Return (VArray vs)).
Proof. reflexivity. Qed.

(** X5: with a sequence of percents, [percentile] returns the array of
    the results for each of them, as many and in the same order. *)
Theorem percentile_of_sequence (ps : list parg) (arr : list Q) (v : pyval) :
  percentile (PSeq ps) (Some arr) = Return v <->
  exists vs,
    v = VArray vs /\
    Forall2 (fun p v => percentile p (Some arr) = Return v) ps vs.
Proof.
  rewrite percentile_PSeq. split.
  - destruct (comprehension _ ps) as [vs|e] eqn:E; simpl; [|discriminate].
    intros [= <-]. exists vs. split; [reflexivity|].
    apply comprehension_Return. exact E.
  - intros [vs [-> H]]. apply comprehension_Return in H.
    rewrite H. reflexivity.
Qed.

(** X6: with a sequence of percents, [percentile] raises exactly when one
    of them raises after those before it returned, and raises what that
    one raises. *)
Theorem sequence_raises_first_failure (ps : list parg) (arr : list Q) (e : exn) :
  percentile (PSeq ps) (Some arr) = Raise e <->
  exists pre p post vs,
    ps = (pre ++ p :: post)%list /\
    Forall2 (fun p v => percentile p (Some arr) = Return v) pre vs /\
    percentile p (Some arr) = Raise e.
Proof.
  rewrite percentile_PSeq, <- comprehension_Raise.
  destruct (comprehension _ ps); simpl; split; congruence.
Qed.

(** X7: on an empty array [percentile] returns no number: it raises
    ValueError (from [min]) for [p == 0] and IndexError (from indexing the
    empty sorted list) for [0 < p <= 100]. *)
Theorem percentile_empty_array (p : Q) :
  (p == 0 ->
   percentile (PNum p) (Some [])
   = Raise (ValueError "min() arg is an empty sequence")) /\
  (0 < p -> p <= 100 ->
   percentile (PNum p) (Some [])
   = Raise (IndexError "list index out of range")) /\
  (forall v, percentile (PNum p) (Some []) <> Return v).
Proof.
  assert (H0 : p == 0 ->
               percentile_num p [] = Raise (ValueError "min() arg is an empty sequence")).
  { intros E. rewrite (percentile_num_zero p [] E). reflexivity. }
  assert (H1 : 0 < p -> p <= 100 ->
               percentile_num p [] = Raise (IndexError "list index out of range")).
  { intros Hp Hp'. unfold percentile_num.
    destruct (Qeq_bool p 0) eqn:E0.
    { apply Qeq_bool_iff in E0. lra. }
    apply Qltb_lt in Hp. apply Qle_bool_iff in Hp'. rewrite Hp, Hp'. simpl.
    replace (Qceiling (p / 100 * inject_Z (len []))) with 0%Z; [reflexivity|].
    symmetry. change 0%Z with (Qceiling 0). apply Qceiling_comp.
    unfold len. simpl. change (inject_Z 0) with 0. ring. }
  split; [|split].
  - intros E. rewrite percentile_PNum, (H0 E). reflexivity.
  - intros Hp Hp'. rewrite percentile_PNum, (H1 Hp Hp'). reflexivity.
  - intros v. rewrite percentile_PNum.
    destruct (Qeq_dec p 0) as [E|E]; [rewrite (H0 E); discriminate|].
    destruct (Qlt_le_dec 0 p) as [Hp|Hp].
    + destruct (Qlt_le_dec 100 p) as [Hp'|Hp'].
      * rewrite percentile_num_out_of_range; [discriminate | exact E |].
        intros [_ H]. lra.
      * rewrite (H1 Hp Hp'). discriminate.
    + rewrite percentile_num_out_of_range; [discriminate | exact E |].
      intros [H _]. lra.
Qed.

Lemma percentile_empty_array_witness :
  percentile (PNum 0) (Some [])
  = Raise (ValueError "min() arg is an empty sequence") /\
  percentile (PNum 50) (Some [])
  = Raise (IndexError "list index out of range").
Proof.
  split.
  - apply (percentile_empty_array 0). reflexivity.
  - apply (percentile_empty_array 50); [reflexivity | discriminate].
Defined.

Lemma percentile_of_sequence_witness :
  percentile (PSeq [PNum 25; PNum 50]) (Some [9; 1; 5; 3])
  = Return (VArray [VNum 1; VNum 3]).
Proof.
  apply (percentile_of_sequence [PNum 25; PNum 50] [9; 1; 5; 3]).
  exists [VNum 1; VNum 3]. split; [reflexivity|].
  repeat constructor.
Defined.

Lemma sequence_raises_first_failure_witness :
  percentile (PSeq [PNum 25; PNum 150; PNum 50]) (Some [9; 1; 5; 3])
  = Raise (AssertionError "Percentile requires a percent").
Proof.
  apply (sequence_raises_first_failure [PNum 25; PNum 150; PNum 50] [9; 1; 5; 3]).
  exists [PNum 25], (PNum 150), [PNum 50], [VNum 1].
  split; [reflexivity|]. split; [repeat constructor | reflexivity].
Defined.

End PercentileEdges.


(** ** The percentile in binary64

    The reading of the result by counts, and the statements of
    [Percentile] above, for the function as it rounds: with the float
    product [(p/100) * len(arr)] where the exact one stood, and arrays of
    fewer than 2^53 items, whose length is a float. *)

Section PercentileFloatRank.
Import Builtins Binary64 PercentileFloat.
Local Open Scope Q_scope.

Lemma round_zero (x : Q) : x == 0 -> round x == 0.
Proof.
  intros H. apply Qle_antisym; [apply round_nonpos | apply round_nonneg];
    rewrite H; apply Qle_refl.
Qed.

Lemma product_nonneg (p : Q) (n : Z) :
  0 <= p -> (0 <= n)%Z -> 0 <= fmul (fdiv p 100) (of_int n).
Proof.
  intros Hp Hn. unfold fmul, fdiv, of_int.
  assert (Ep : p / 100 == p * (1 # 100)) by reflexivity.
  apply round_nonneg, Qmult_le_0_compat; apply round_nonneg; [lra|].
  change 0 with (inject_Z 0). rewrite <- Zle_Qle. exact Hn.
Qed.

Lemma product_mono (p q : Q) (n : Z) :
  p <= q -> (0 <= n)%Z ->
  fmul (fdiv p 100) (of_int n) <= fmul (fdiv q 100) (of_int n).
Proof.
  intros Hpq Hn. unfold fmul, fdiv, of_int.
  assert (Ep : p / 100 == p * (1 # 100)) by reflexivity.
  assert (Eq : q / 100 == q * (1 # 100)) by reflexivity.
  apply round_mono, Qmult_le_compat_r.
  - apply round_mono. lra.
  - apply round_nonneg. change 0 with (inject_Z 0). rewrite <- Zle_Qle. exact Hn.
Qed.

Lemma rank_positive (p : Q) (n : Z) :
  0 < fmul (fdiv p 100) (of_int n) <-> (1 <= rank p n)%Z.
Proof.
  unfold rank. set (x := fmul (fdiv p 100) (of_int n)).
  pose proof (Qle_ceiling x) as Hle. pose proof (Qceiling_lt x) as Hlt.
  split; intros H.
  - assert (H' : inject_Z 0 < inject_Z (Qceiling x)).
    { change (inject_Z 0) with 0. lra. }
    rewrite <- Zlt_Qlt in H'. lia.
  - assert (H' : inject_Z 0 <= inject_Z (Qceiling x - 1)).
    { rewrite <- Zle_Qle. lia. }
    change (inject_Z 0) with 0 in H'. lra.
Qed.

(** For a positive product the item returned is the one at the rank, counted
    from 1, in the sorted copy. *)
Lemma float_rank_item (p : Q) (arr : list Q) :
  arr <> [] -> (len arr < 2 ^ 53)%Z -> 0 < p -> p <= 100 ->
  0 < fmul (fdiv p 100) (of_int (len arr)) ->
  let k := rank p (len arr) in
  (1 <= k <= len arr)%Z /\
  exists v, percentile_num p arr = Return v /\
            nth_error (sorted arr) (Z.to_nat (k - 1)) = Some v.
Proof.
  intros Hne Hlen Hp Hp' Hpos k.
  destruct (float_index p arr Hne Hlen Hp Hp') as [Hk [v [Hv [_ Hnth]]]].
  apply rank_positive in Hpos. fold k in Hk, Hnth, Hpos.
  split; [lia|]. exists v. split; [exact Hv|].
  destruct (k =? 0)%Z eqn:E; [apply Z.eqb_eq in E; lia | exact Hnth].
Qed.

Lemma float_PNum_Return (p : Q) (arr : list Q) (v : Q) :
  percentile (PNum p) (Some arr) = Return (VNum v) <->
  percentile_num p arr = Return v.
Proof.
  rewrite percentile_float_PNum. destruct (percentile_num p arr); simpl.
  - split; congruence.
  - split; discriminate.
Qed.

Lemma float_num_zero (p : Q) (arr : list Q) :
  p == 0 -> percentile_num p arr = py_min arr.
Proof.
  intros E. unfold percentile_num.
  apply Qeq_bool_iff in E. rewrite E. reflexivity.
Qed.

Lemma float_num_In (p : Q) (arr : list Q) (v : Q) :
  percentile_num p arr = Return v -> In v arr.
Proof.
  unfold percentile_num. destruct (Qeq_bool p 0).
  - intros H. apply py_min_spec in H. apply H.
  - destruct (py_assert _ _) as [[]|e]; simpl; [|discriminate].
    intros H. apply getitem_In in H.
    eapply Permutation_in; [symmetry; apply sorted_perm | exact H].
Qed.

Lemma float_num_defined (p : Q) (arr : list Q) :
  arr <> [] -> (len arr < 2 ^ 53)%Z -> 0 <= p -> p <= 100 ->
  exists v, percentile_num p arr = Return v.
Proof.
  intros Hne Hlen Hp Hp'. destruct (Qeq_dec p 0) as [E|E].
  - rewrite (float_num_zero p arr E).
    destruct arr; [contradiction | eexists; reflexivity].
  - destruct (float_index p arr Hne Hlen (pos_of_nonzero p Hp E) Hp')
      as [_ [v [Hv _]]].
    exists v. exact Hv.
Qed.

(** The items at one position of the sorted copies of two rearrangements
    of an array are equal. *)
Lemma sorted_nth_perm (l l' : list Q) (i : nat) (v v' : Q) :
  Permutation l l' ->
  nth_error (sorted l) i = Some v -> nth_error (sorted l') i = Some v' ->
  v == v'.
Proof.
  assert (Hle : forall l l' v v',
             Permutation l l' ->
             nth_error (sorted l) i = Some v ->
             nth_error (sorted l') i = Some v' -> v' <= v).
  { clear. intros l l' v v' Hperm Hv Hv'.
    destruct (Qlt_le_dec v v') as [Hlt|Hge]; [exfalso | exact Hge].
    pose proof (ascending_count_ge _ (sorted_ascending l) _ _ Hv) as H1.
    pose proof (ascending_count_le _ (sorted_ascending l') _ _ _ Hv' Hlt) as H2.
    rewrite <- (count_le_perm v _ _ (sorted_perm l)) in H1.
    rewrite <- (count_le_perm v _ _ (sorted_perm l')) in H2.
    rewrite (count_le_perm v _ _ Hperm) in H1. lia. }
  intros Hperm Hv Hv'. apply Qle_antisym.
  - apply (Hle l' l v' v (Permutation_sym Hperm) Hv' Hv).
  - apply (Hle l l' v v' Hperm Hv Hv').
Qed.

(** X1: on a non-empty array the percentile does not decrease when the
    percent grows, from a percent that is 0 or has a positive float product
    [(p/100) * len(arr)] up to 100.  (A positive percent whose product
    rounds to zero gives the largest item.) *)
Theorem percentile_monotone (p q : Q) (arr : list Q) :
  arr <> [] -> (len arr < 2 ^ 53)%Z ->
  0 <= p -> p <= q -> q <= 100 ->
  p == 0 \/ 0 < fmul (fdiv p 100) (of_int (len arr)) ->
  exists v w,
    percentile (PNum p) (Some arr) = Return (VNum v) /\
    percentile (PNum q) (Some arr) = Return (VNum w) /\
    v <= w.
Proof.
  intros Hne Hlen Hp Hpq Hq Hpos.
  assert (Hq0 : 0 <= q) by lra. assert (Hp100 : p <= 100) by lra.
  destruct (float_num_defined p arr Hne Hlen Hp Hp100) as [v Hv].
  destruct (float_num_defined q arr Hne Hlen Hq0 Hq) as [w Hw].
  exists v, w. rewrite !float_PNum_Return.
  split; [exact Hv|]. split; [exact Hw|].
  destruct (Qeq_dec p 0) as [E|E].
  - rewrite (float_num_zero p arr E) in Hv.
    apply py_min_spec in Hv. apply Hv.
    eapply float_num_In; eassumption.
  - destruct Hpos as [Hpos|Hpos]; [contradiction|].
    pose proof (pos_of_nonzero p Hp E) as Hp0.
    assert (Hq0' : 0 < q) by lra.
    assert (Hn : (0 <= len arr)%Z) by (unfold len; lia).
    pose proof (product_mono p q (len arr) Hpq Hn) as Hm.
    assert (Hposq : 0 < fmul (fdiv q 100) (of_int (len arr))) by lra.
    destruct (float_rank_item p arr Hne Hlen Hp0 Hp100 Hpos) as [Hk [v' [Hv' Hnv]]].
    destruct (float_rank_item q arr Hne Hlen Hq0' Hq Hposq) as [Hk' [w' [Hw' Hnw]]].
    assert (v' = v) by congruence. assert (w' = w) by congruence. subst.
    apply (ascending_nth _ (sorted_ascending arr) _ _ v w Hnv Hnw).
    pose proof (Qceiling_resp_le _ _ Hm) as Hc. unfold rank in *. lia.
Qed.

Lemma percentile_monotone_witness :
  exists v w,
    percentile (PNum 25) (Some [9; 1; 5; 3]) = Return (VNum v) /\
    percentile (PNum 60) (Some [9; 1; 5; 3]) = Return (VNum w) /\
    v <= w.
Proof.
  apply (percentile_monotone 25 60 [9; 1; 5; 3]);
    try (right; vm_compute; reflexivity);
    vm_compute; first [reflexivity | discriminate].
Defined.

(** X2: the docstring's reading of the result, "the value that is at least
    as great as p% of the values", for the product as the program computes
    it: on a non-empty array and for [0 <= p <= 100], the number of items
    that are at most the value returned is at least the float product
    [(p/100) * len(arr)]. *)
Theorem percentile_covers_percent (p : Q) (arr : list Q) :
  arr <> [] -> (len arr < 2 ^ 53)%Z -> 0 <= p -> p <= 100 ->
  exists v,
    percentile (PNum p) (Some arr) = Return (VNum v) /\
    fmul (fdiv p 100) (of_int (len arr))
    <= inject_Z (Z.of_nat (count_le v arr)).
Proof.
  intros Hne Hlen Hp Hp'.
  destruct (float_num_defined p arr Hne Hlen Hp Hp') as [v Hv].
  exists v. rewrite float_PNum_Return. split; [exact Hv|].
  assert (Hc0 : 0 <= inject_Z (Z.of_nat (count_le v arr))).
  { change 0 with (inject_Z 0). rewrite <- Zle_Qle. lia. }
  destruct (Qlt_le_dec 0 (fmul (fdiv p 100) (of_int (len arr)))) as [Hpos|Hz];
    [|lra].
  destruct (Qeq_dec p 0) as [E|E].
  - exfalso. unfold fmul, fdiv in Hpos.
    assert (E1 : round (p / 100) == 0).
    { apply round_zero. rewrite E. reflexivity. }
    assert (E2 : round (round (p / 100) * of_int (len arr)) == 0).
    { apply round_zero. rewrite E1. ring. }
    lra.
  - pose proof (pos_of_nonzero p Hp E) as Hp0.
    destruct (float_rank_item p arr Hne Hlen Hp0 Hp' Hpos) as [Hk [v' [Hv' Hnth]]].
    assert (v' = v) by congruence. subst v'.
    pose proof (ascending_count_ge _ (sorted_ascending arr) _ _ Hnth) as Hc.
    rewrite <- (count_le_perm v _ _ (sorted_perm arr)) in Hc.
    eapply Qle_trans; [apply Qle_ceiling|].
    rewrite <- Zle_Qle. unfold rank in *. lia.
Qed.

Lemma percentile_covers_percent_witness :
  exists v,
    percentile (PNum 60) (Some [9; 1; 5; 3]) = Return (VNum v) /\
    fmul (fdiv 60 100) (of_int (len [9; 1; 5; 3]))
    <= inject_Z (Z.of_nat (count_le v [9; 1; 5; 3])).
Proof.
  apply (percentile_covers_percent 60 [9; 1; 5; 3]);
    vm_compute; first [reflexivity | discriminate].
Defined.

(** X3: the value returned is the least such value: for [0 < p <= 100] with
    a positive float product [(p/100) * len(arr)], a number with at least
    that many items at or below it is not below the value returned. *)
Theorem percentile_least_cover (p : Q) (arr : list Q) (v w : Q) :
  arr <> [] -> (len arr < 2 ^ 53)%Z -> 0 < p -> p <= 100 ->
  0 < fmul (fdiv p 100) (of_int (len arr)) ->
  percentile (PNum p) (Some arr) = Return (VNum v) ->
  fmul (fdiv p 100) (of_int (len arr)) <= inject_Z (Z.of_nat (count_le w arr)) ->
  v <= w.
Proof.
  intros Hne Hlen Hp Hp' Hpos Hv Hw. apply float_PNum_Return in Hv.
  destruct (float_rank_item p arr Hne Hlen Hp Hp' Hpos) as [Hk [v' [Hv' Hnth]]].
  assert (v' = v) by congruence. subst v'.
  destruct (Qlt_le_dec w v) as [Hlt|Hle]; [exfalso | exact Hle].
  pose proof (ascending_count_le _ (sorted_ascending arr) _ _ _ Hnth Hlt) as Hc.
  rewrite <- (count_le_perm w _ _ (sorted_perm arr)) in Hc.
  pose proof (Qceiling_lt (fmul (fdiv p 100) (of_int (len arr)))) as Hceil.
  assert (Hcw : inject_Z (Z.of_nat (count_le w arr))
                <= inject_Z (rank p (len arr) - 1)).
  { rewrite <- Zle_Qle. lia. }
  unfold rank in Hcw. lra.
Qed.

Lemma percentile_least_cover_witness : 5 <= 7.
Proof.
  apply (percentile_least_cover 60 [9; 1; 5; 3] 5 7);
    vm_compute; first [reflexivity | discriminate].
Defined.

(** X8: the special case [p == 0] fits the general one: for a percent
    [p > 0] whose float product [(p/100) * len(arr)] is positive and at
    most 1 the result is equal ([==]) to [min(arr)] as well. *)
Theorem percentile_small_is_min (p : Q) (arr : list Q) :
  arr <> [] -> (len arr < 2 ^ 53)%Z -> 0 < p -> p <= 100 ->
  0 < fmul (fdiv p 100) (of_int (len arr)) ->
  fmul (fdiv p 100) (of_int (len arr)) <= 1 ->
  exists v m,
    percentile (PNum p) (Some arr) = Return (VNum v) /\
    py_min arr = Return m /\ v == m.
Proof.
  intros Hne Hlen Hp Hp' Hpos Hone.
  destruct (float_rank_item p arr Hne Hlen Hp Hp' Hpos) as [Hk [v [Hv Hnth]]].
  destruct (py_min arr) as [m|e] eqn:Em;
    [|destruct arr; [contradiction | discriminate]].
  exists v, m. rewrite float_PNum_Return.
  split; [exact Hv|]. split; [reflexivity|].
  destruct (py_min_spec arr m Em) as [Hin Hle].
  apply Qle_antisym; [|apply Hle; eapply float_num_In; eassumption].
  destruct (Qlt_le_dec m v) as [Hlt|Hge]; [exfalso | exact Hge].
  pose proof (ascending_count_le _ (sorted_ascending arr) _ _ _ Hnth Hlt) as Hc.
  rewrite <- (count_le_perm m _ _ (sorted_perm arr)) in Hc.
  pose proof (count_le_In m arr Hin) as H1.
  assert (Hr : (rank p (len arr) <= 1)%Z).
  { unfold rank. change 1%Z with (Qceiling 1). apply Qceiling_resp_le, Hone. }
  lia.
Qed.

Lemma percentile_small_is_min_witness :
  exists v m,
    percentile (PNum 20) (Some [9; 1; 5; 3]) = Return (VNum v) /\
    py_min [9; 1; 5; 3] = Return m /\ v == m.
Proof.
  apply (percentile_small_is_min 20 [9; 1; 5; 3]);
    vm_compute; first [reflexivity | discriminate].
Defined.

(** [percentile(0, arr)] is [min(arr)] and [percentile(100, arr)] is equal
    to [max(arr)], as with the exact product. *)
Lemma float_min_max (arr : list Q) :
  arr <> [] -> (len arr < 2 ^ 53)%Z ->
  (exists m, percentile (PNum 0) (Some arr) = Return (VNum m) /\
             py_min arr = Return m /\
             In m arr /\ forall x, In x arr -> m <= x) /\
  (exists M M', percentile (PNum 100) (Some arr) = Return (VNum M) /\
                py_max arr = Return M' /\ M == M' /\
                In M arr /\ forall x, In x arr -> x <= M).
Proof.
  intros Hne Hlen. split.
  - destruct (py_min arr) as [m|e] eqn:Em;
      [|destruct arr; [contradiction | discriminate]].
    exists m. split; [|split; [reflexivity | apply py_min_spec, Em]].
    apply float_PNum_Return. rewrite float_num_zero by reflexivity. exact Em.
  - assert (Hn : (1 <= len arr)%Z).
    { destruct arr; [contradiction | unfold len; simpl; lia]. }
    assert (Hrank : rank 100 (len arr) = len arr).
    { apply Z.le_antisymm.
      - apply rank_bounds_float; [reflexivity | discriminate | lia].
      - unfold rank, fmul, of_int.
        assert (E1 : fdiv 100 100 = 1) by (vm_compute; reflexivity).
        rewrite E1.
        rewrite <- (Qceiling_Z (len arr)) at 1.
        apply Qceiling_resp_le.
        rewrite <- (round_int (len arr)) at 1 by lia.
        apply round_mono. rewrite Qmult_1_l, round_int by lia. apply Qle_refl. }
    destruct (float_index 100 arr Hne Hlen) as [_ [M [HM [_ Hnth]]]];
      [reflexivity | discriminate |].
    rewrite Hrank in Hnth.
    destruct (len arr =? 0)%Z eqn:E0; [apply Z.eqb_eq in E0; lia|].
    assert (Hmax : forall x, In x arr -> x <= M).
    { intros x Hx.
      apply (Permutation_in _ (sorted_perm arr)) in Hx.
      apply In_nth_error in Hx. destruct Hx as [j Hj].
      apply (ascending_nth _ (sorted_ascending arr) j _ x M Hj Hnth).
      assert (j < List.length (sorted arr))%nat
        by (apply nth_error_Some; congruence).
      pose proof (sorted_len arr) as Hl. unfold len in *. lia. }
    assert (HinM : In M arr) by (eapply float_num_In; eassumption).
    destruct arr as [|x l]; [contradiction|].
    destruct (fold_max_spec l x) as [Hin' Hle'].
    exists M. eexists. split; [apply float_PNum_Return, HM|].
    split; [reflexivity|]. split; [|split; [exact HinM | exact Hmax]].
    apply Qle_antisym; [apply Hle', HinM | apply Hmax, Hin'].
Qed.

(** A number that is neither 0 nor in (0, 100] is rejected. *)
Lemma float_rejects_non_percent (p : Q) (arr : list Q) :
  ~ p == 0 -> ~ (0 < p /\ p <= 100) ->
  percentile (PNum p) (Some arr)
  = Raise (AssertionError "Percentile requires a percent").
Proof.
  intros H0 Hr. rewrite percentile_float_PNum. unfold percentile_num.
  destruct (Qeq_bool p 0) eqn:E0; [apply Qeq_bool_iff in E0; contradiction|].
  destruct (Qltb 0 p && Qle_bool p 100) eqn:E; [|reflexivity].
  apply andb_true_iff in E. destruct E as [E1 E2].
  apply Qltb_lt in E1. apply Qle_bool_iff in E2. exfalso. auto.
Qed.

(** The result is one of the items. *)
Lemma float_selects_item (p : Q) (arr : list Q) :
  arr <> [] -> (len arr < 2 ^ 53)%Z -> 0 <= p -> p <= 100 ->
  exists v, percentile (PNum p) (Some arr) = Return (VNum v) /\ In v arr.
Proof.
  intros Hne Hlen Hp Hp'.
  destruct (float_num_defined p arr Hne Hlen Hp Hp') as [v Hv].
  exists v. split; [apply float_PNum_Return, Hv | eapply float_num_In, Hv].
Qed.

(** The order of the items does not matter. *)
Lemma float_order_independent (p : Q) (arr arr' : list Q) :
  arr <> [] -> (len arr < 2 ^ 53)%Z ->
  Permutation arr arr' -> 0 <= p -> p <= 100 ->
  exists v v',
    percentile (PNum p) (Some arr) = Return (VNum v) /\
    percentile (PNum p) (Some arr') = Return (VNum v') /\
    v == v'.
Proof.
  intros Hne Hlen Hperm Hp Hp'.
  assert (Hne' : arr' <> []).
  { intros ->. apply Permutation_sym, Permutation_nil in Hperm. contradiction. }
  assert (El : len arr' = len arr).
  { unfold len. f_equal. symmetry. apply Permutation_length, Hperm. }
  assert (Hlen' : (len arr' < 2 ^ 53)%Z) by (rewrite El; exact Hlen).
  destruct (Qeq_dec p 0) as [E|E].
  - destruct (py_min arr) as [m|e] eqn:Em;
      [|destruct arr; [contradiction | discriminate]].
    destruct (py_min arr') as [m'|e] eqn:Em';
      [|destruct arr'; [contradiction | discriminate]].
    exists m, m'. rewrite !float_PNum_Return, !float_num_zero by exact E.
    split; [exact Em|]. split; [exact Em'|].
    apply py_min_spec in Em, Em'. destruct Em as [Hin Hle], Em' as [Hin' Hle'].
    apply Qle_antisym.
    + apply Hle. eapply Permutation_in; [symmetry; exact Hperm | exact Hin'].
    + apply Hle'. eapply Permutation_in; [exact Hperm | exact Hin].
  - pose proof (pos_of_nonzero p Hp E) as Hp0.
    destruct (float_index p arr Hne Hlen Hp0 Hp') as [_ [v [Hv [_ Hnth]]]].
    destruct (float_index p arr' Hne' Hlen' Hp0 Hp') as [_ [v' [Hv' [_ Hnth']]]].
    rewrite El in Hnth'.
    exists v, v'. rewrite !float_PNum_Return.
    split; [exact Hv|]. split; [exact Hv'|].
    eapply sorted_nth_perm; eassumption.
Qed.

(** On an empty array no number is returned. *)
Lemma float_empty_array (p : Q) :
  (p == 0 ->
   percentile (PNum p) (Some [])
   = Raise (ValueError "min() arg is an empty sequence")) /\
  (0 < p -> p <= 100 ->
   percentile (PNum p) (Some [])
   = Raise (IndexError "list index out of range")).
Proof.
  split.
  - intros E. rewrite percentile_float_PNum, float_num_zero by exact E.
    reflexivity.
  - intros Hp Hp'. rewrite percentile_float_PNum. unfold percentile_num.
    destruct (Qeq_bool p 0) eqn:E0; [apply Qeq_bool_iff in E0; lra|].
    apply Qltb_lt in Hp. apply Qle_bool_iff in Hp'. rewrite Hp, Hp'.
    cbn [andb py_assert bind].
    assert (E : Qceiling (fmul (fdiv p 100) (of_int (len (@nil Q)))) = 0%Z).
    { rewrite <- (Qceiling_Z 0). apply Qceiling_comp.
      unfold fmul. apply round_zero. change (of_int (len (@nil Q))) with 0. ring. }
    rewrite E. reflexivity.
Qed.

End PercentileFloatRank.

Section NormalCdfSamples.
Import Builtins Binary64 NormalCdf.
Local Open Scope Q_scope.

(** X12: bounds the wrong way round shade nothing between them: when the
    float [rbound + 0.1] is not beyond [lbound], the gold region has no
    samples; the dark blue region is still drawn. *)
Theorem reversed_bounds_empty_region (rbound lbound mean sd : Q) :
  fadd rbound (literal 0.1) <= lbound ->
  exists blue,
    filled_regions (plot_normal_cdf (Some rbound) (Some lbound) mean sd)
    = [([], "gold"); (blue, "darkblue")].
Proof.
  intros H. eexists. rewrite regions_both.
  rewrite (arange_nil lbound (fadd rbound (literal 0.1)) (literal 0.1));
    [reflexivity | apply step_pos | exact H].
Qed.

Lemma reversed_bounds_empty_region_witness :
  exists blue,
    filled_regions (plot_normal_cdf (Some (-1)) (Some 1) 0 1)
    = [([], "gold"); (blue, "darkblue")].
Proof.
  apply (reversed_bounds_empty_region (-1) 1 0 1). vm_compute. discriminate.
Defined.

End NormalCdfSamples.

Section TableApplyShape.
Import Builtins TableApplyImpl.

Lemma bind_Return {A B : Type} (r : result A) (k : A -> result B) (b : B) :
  (a <- r ;; k a) = Return b -> exists a, r = Return a /\ k a = Return b.
Proof.
  destruct r as [a|e]; simpl; [|discriminate].
  intros H. exists a. auto.
Qed.

Lemma setitem_labels (df : DataFrame) (col : label) (vals : list value) :
  column_labels (setitem df col vals) = column_labels df.
Proof.
  unfold column_labels, setitem. simpl. rewrite map_map.
  apply map_ext. intros c. destruct (label_eqb col (fst c)); reflexivity.
Qed.

Lemma kept_refl (subset : list label) (cols : list (label * list value)) :
  kept subset cols cols.
Proof.
  induction cols; constructor; auto.
Qed.

Lemma kept_setitem (df : DataFrame) (col : label) (vals : list value) :
  kept [col] (columns df) (columns (setitem df col vals)).
Proof.
  unfold setitem. simpl.
  induction (columns df) as [|c cols IH]; simpl; constructor; [|exact IH].
  destruct (label_eqb col (fst c)) eqn:E; simpl; [|auto].
  split; [reflexivity|]. intros H. exfalso. apply H. left.
  apply label_eqb_eq. exact E.
Qed.

Lemma kept_step (col : label) (rest : list label)
    (cols cols1 cols2 : list (label * list value)) :
  kept [col] cols cols1 -> kept rest cols1 cols2 -> kept (col :: rest) cols cols2.
Proof.
  intros H1. revert cols2.
  induction H1 as [|c c1 cols cols1 [Hf Hs] _ IH]; intros cols2 H2;
    inversion H2 as [|c1' c2 cols1' cols2' [Hf' Hs'] H2']; subst; constructor.
  - split; [congruence|]. intros Hn.
    rewrite Hs', Hs; [reflexivity | |].
    + intros [E|[]]. apply Hn. left. exact E.
    + rewrite Hf. intros Hr. apply Hn. right. exact Hr.
  - apply IH. exact H2'.
Qed.

Lemma subset_loop_kept (func : pyfunc) (subset : list label) :
  forall df df' : DataFrame,
    for_each (fun df col =>
                vals <- getitem df col ;;
                vals <- Series_apply func vals ;;
                Return (setitem df col vals)) subset df = Return df' ->
    kept subset (columns df) (columns df').
Proof.
  induction subset as [|col rest IH]; intros df df' H; simpl in H.
  - injection H as <-. apply kept_refl.
  - apply bind_Return in H. destruct H as [df1 [H1 H2]].
    apply bind_Return in H1. destruct H1 as [vals [_ H1]].
    apply bind_Return in H1. destruct H1 as [vals' [_ H1]].
    injection H1 as <-.
    eapply kept_step; [apply kept_setitem | apply IH, H2].
Qed.

Lemma kept_labels (subset : list label) (cols cols' : list (label * list value)) :
  kept subset cols cols' -> map fst cols' = map fst cols.
Proof.
  induction 1 as [|c c' cols cols' [Hf _] _ IH]; simpl; congruence.
Qed.

Lemma frame_columns_labels (n : nat) (results : list (label * value)) :
  forall cols, frame_columns n results = Some cols ->
               map fst cols = map fst results.
Proof.
  induction results as [|[c v] results IH]; intros cols H; simpl in H.
  - injection H as <-. reflexivity.
  - destruct (broadcast n v); [|discriminate].
    destruct (frame_columns n results) as [cols'|]; [|discriminate].
    injection H as <-. simpl. f_equal. apply IH. reflexivity.
Qed.

Lemma results_labels (func : pyfunc) (cols : list (label * list value))
    (results : list (label * value)) :
  comprehension (fun c => r <- func (Seq (snd c)) ;; Return (fst c, r)) cols
  = Return results ->
  map fst results = map fst cols.
Proof.
  revert results. induction cols as [|c cols IH]; intros results H; simpl in H.
  - injection H as <-. reflexivity.
  - apply bind_Return in H. destruct H as [cr [H1 H2]].
    apply bind_Return in H1. destruct H1 as [r [_ H1]]. injection H1 as <-.
    apply bind_Return in H2. destruct H2 as [rest [H2 H3]]. injection H3 as <-.
    simpl. f_equal. apply IH. exact H2.
Qed.

Lemma combine_fst_snd {A B : Type} (l : list (A * B)) :
  combine (map fst l) (map snd l) = l.
Proof.
  induction l as [|[a b] l IH]; simpl; congruence.
Qed.

(** The frame that goes to [from_df] has the labels of the one that came
    from [to_df]. *)
Lemma combine_labels {A B : Type} (l : list A) (l' : list B) :
  List.length l = List.length l' ->
  map fst (map (fun nv : A * B => (fst nv, [snd nv])) (combine l l')) = l.
Proof.
  revert l'. induction l as [|a l IH]; intros [|b l'] H; simpl in *;
    try discriminate; [reflexivity|].
  f_equal. apply IH. congruence.
Qed.

Lemma Series_of_labels (r : value) (labels : list label) (s : Series) :
  Series_of r labels = Return s ->
  column_labels (transpose (DataFrame_of_Series s)) = labels.
Proof.
  assert (Hfill : forall v : value,
             column_labels (transpose (DataFrame_of_Series
                              (mkSeries labels (map (fun _ => v) labels))))
             = labels).
  { intros v. unfold column_labels.
    rewrite transpose_Series by (rewrite length_map; reflexivity).
    cbn [columns]. apply combine_labels. rewrite length_map. reflexivity. }
  destruct r as [q|t|vs|vs]; simpl; try (intros [= <-]; apply Hfill).
  destruct (Nat.eqb (List.length vs) (List.length labels)) eqn:E;
    [|discriminate].
  intros [= <-]. apply Nat.eqb_eq in E. unfold column_labels.
  rewrite transpose_Series by congruence.
  cbn [columns]. apply combine_labels. congruence.
Qed.

Lemma empty_apply_labels (func : pyfunc) (df : DataFrame) (obj : pandas_obj) :
  match func (Seq []) with
  | Return r =>
      if is_Series r then Return (Frame df)
      else match columns df with
           | [] => Return (Ser (mkSeries [] []))
           | _ => s <- Series_of r (column_labels df) ;; Return (Ser s)
           end
  | Raise _ => Return (Frame df)
  end = Return obj ->
  column_labels (match obj with
                 | Ser s => transpose (DataFrame_of_Series s)
                 | Frame df => df
                 end) = column_labels df.
Proof.
  destruct (func (Seq [])) as [r|e]; [destruct (is_Series r)|];
    try (intros [= <-]; reflexivity).
  destruct (columns df) as [|c cols] eqn:Ecols.
  - intros [= <-]. unfold column_labels. rewrite Ecols. reflexivity.
  - intros H. apply bind_Return in H. destruct H as [s [Hs H]].
    injection H as <-. apply Series_of_labels in Hs. rewrite Hs.
    unfold column_labels. rewrite Ecols. reflexivity.
Qed.

Lemma DataFrame_apply_labels (func : pyfunc) (df : DataFrame) (obj : pandas_obj) :
  DataFrame_apply func df = Return obj ->
  column_labels (match obj with
                 | Ser s => transpose (DataFrame_of_Series s)
                 | Frame df => df
                 end) = column_labels df.
Proof.
  unfold DataFrame_apply.
  destruct (columns df) as [|c cols] eqn:Ecols.
  { intros H. apply (empty_apply_labels func df obj). rewrite Ecols. exact H. }
  destruct (index df) as [|i0 idx] eqn:Eidx.
  { intros H. apply (empty_apply_labels func df obj). rewrite Ecols. exact H. }
  unfold column_labels. rewrite Ecols.
  intros H. apply bind_Return in H. destruct H as [results [Hres H]].
  apply results_labels in Hres.
  assert (Hser : map fst (columns (transpose (DataFrame_of_Series
                    (mkSeries (map fst results) (map snd results)))))
                 = map fst (c :: cols)).
  { rewrite transpose_Series by (rewrite !length_map; reflexivity).
    simpl columns. rewrite combine_fst_snd, map_map. simpl.
    exact Hres. }
  destruct results as [|[c0 v0] results'].
  - injection H as <-. exact Hser.
  - destruct (is_sequence v0); [|injection H as <-; exact Hser].
    destruct (frame_columns _ _) as [fcols|] eqn:Ef.
    + injection H as <-. simpl columns.
      rewrite (frame_columns_labels _ _ _ Ef). exact Hres.
    + injection H as <-. exact Hser.
Qed.

(** X13: [table_apply] never renames, drops, adds or reorders columns:
    whenever it returns, with or without [subset] and whatever [func]
    returns, the output has the column names of the input in their order. *)
Theorem table_apply_keeps_names (table : Table) (func : pyfunc)
    (subset : option subset_arg) (out : Table) :
  table_apply table func subset = Return out ->
  map fst out = map fst table.
Proof.
  unfold table_apply. intros H.
  apply bind_Return in H. destruct H as [obj [Hobj H]].
  injection H as <-. unfold from_df.
  destruct subset as [s|].
  - destruct (any _).
    + apply bind_Return in Hobj. destruct Hobj as [names [_ Hobj]]. discriminate.
    + apply bind_Return in Hobj. destruct Hobj as [df' [Hloop Hobj]].
      injection Hobj as <-.
      apply subset_loop_kept, kept_labels in Hloop. exact Hloop.
  - apply DataFrame_apply_labels in Hobj. exact Hobj.
Qed.

Lemma table_apply_keeps_names_witness :
  map fst [(Name "a", [Num 3]); (Name "b", [Num 3])] = map fst sample_table.
Proof.
  apply (table_apply_keeps_names sample_table py_len None).
  reflexivity.
Defined.

(** X14: with [subset], when [table_apply] returns, every identifier of
    [subset] is a column of the table and the columns that are not in
    [subset] hold the values they held. *)
Theorem table_apply_subset_untouched (table : Table) (func : pyfunc)
    (subset : subset_arg) (out : Table) :
  table_apply table func (Some subset) = Return out ->
  (forall i, In i (atleast_1d subset) -> In i (map fst table)) /\
  Forall2 (fun c c' => fst c' = fst c /\
                       (~ In (fst c) (atleast_1d subset) -> snd c' = snd c))
          table out.
Proof.
  unfold table_apply. intros H.
  apply bind_Return in H. destruct H as [obj [Hobj H]].
  injection H as <-. unfold from_df.
  destruct (any _) eqn:Eany.
  - apply bind_Return in Hobj. destruct Hobj as [names [_ Hobj]]. discriminate.
  - apply bind_Return in Hobj. destruct Hobj as [df' [Hloop Hobj]].
    injection Hobj as <-. split.
    + intros i Hi. rewrite any_map in Eany.
      apply contains_In. destruct (contains _ i) eqn:Ec; [reflexivity|].
      assert (Ht : existsb (fun i => negb (contains (column_labels (to_df table)) i))
                           (atleast_1d subset) = true); [|congruence].
      apply existsb_exists. exists i. split; [exact Hi|].
      change (column_labels (to_df table)) with (map fst table). rewrite Ec.
      reflexivity.
    + apply subset_loop_kept in Hloop. exact Hloop.
Qed.

Lemma table_apply_subset_untouched_witness :
  Forall2 (fun c c' => fst c' = fst c /\
                       (~ In (fst c) [Name "b"] -> snd c' = snd c))
          sample_table
          [(Name "a", [Num 1; Num 2; Num 3]); (Name "b", [Num 0; Num 0; Num 0])].
Proof.
  apply (table_apply_subset_untouched sample_table
           (fun _ => Return (Num 0)) (One (Name "b"))).
  reflexivity.
Defined.











Lemma results_of_columns (func : pyfunc) (g : list value -> list value)
    (cols : list (label * list value)) :
  Forall (fun c => func (Seq (snd c)) = Return (Seq (g (snd c)))) cols ->
  comprehension (fun c => r <- func (Seq (snd c)) ;; Return (fst c, r)) cols
  = Return (map (fun c => (fst c, Seq (g (snd c)))) cols).
Proof.
  induction 1 as [|c cols Hc _ IH]; simpl; [reflexivity|].
  rewrite Hc. simpl. rewrite IH. reflexivity.
Qed.

Lemma frame_columns_uniform (g : list value -> list value) (n : nat)
    (cols : list (label * list value)) :
  Forall (fun c => List.length (g (snd c)) = n) cols ->
  frame_columns n (map (fun c => (fst c, Seq (g (snd c)))) cols)
  = Some (map (fun c => (fst c, g (snd c))) cols).
Proof.
  induction 1 as [|c cols Hc _ IH]; simpl; [reflexivity|].
  rewrite Hc, Nat.eqb_refl, IH. reflexivity.
Qed.

(** X16: the docstring's first shape, [shape == shape(table)]: when all
    columns of the table have one length and [func] returns, for each
    column of the table, a Series over the column's rows, the output is the
    table with each column replaced by what [func] returns for it, also
    when the columns have no rows; with the identity the output is the
    table itself. *)
Theorem table_apply_same_shape (table : Table) (func : pyfunc)
    (g : list value -> list value) (n : nat) :
  Forall (fun c => func (Seq (snd c)) = Return (Seq (g (snd c))) /\
                   List.length (g (snd c)) = List.length (snd c)) table ->
  Forall (fun c => List.length (snd c) = n) table ->
  table_apply table func None
  = Return (map (fun c => (fst c, g (snd c))) table).
Proof.
  intros Hg Hn. unfold table_apply, DataFrame_apply.
  change (columns (to_df table)) with table.
  change (index (to_df table)) with (RangeIndex (num_rows table)).
  destruct table as [|c cols].
  - destruct (func (Seq [])) as [r|e]; [destruct (is_Series r)|]; reflexivity.
  - assert (Hfun : Forall (fun c => func (Seq (snd c)) = Return (Seq (g (snd c))))
                          (c :: cols)).
    { eapply Forall_impl; [|exact Hg]. intros c' [H _]. exact H. }
    assert (Hlen : Forall (fun c' => List.length (g (snd c')) = n) (c :: cols)).
    { rewrite Forall_forall in *. intros c' Hc'.
      rewrite (proj2 (Hg c' Hc')). apply Hn, Hc'. }
    assert (Hc : List.length (snd c) = n) by (inversion Hn; assumption).
    destruct (RangeIndex (num_rows (c :: cols))) as [|i0 idx] eqn:Eidx.
    + apply RangeIndex_nil in Eidx. simpl in Eidx.
      assert (Hn0 : n = 0%nat) by congruence.
      rewrite Hn0 in Hn, Hlen. clear Hc Hn0.
      apply length_zero_iff_nil in Eidx.
      inversion Hfun as [|c' cs Hfc _]; subst.
      rewrite Eidx in Hfc. rewrite Hfc. cbn [is_Series bind].
      unfold from_df. cbn [columns to_df]. f_equal.
      rewrite <- (map_id (c :: cols)) at 1.
      apply map_ext_in. intros [l vals] Hin.
      rewrite Forall_forall in Hn, Hlen.
      specialize (Hn _ Hin). specialize (Hlen _ Hin).
      cbn [fst snd] in Hn, Hlen |- *.
      apply length_zero_iff_nil in Hn. subst vals.
      apply length_zero_iff_nil in Hlen. rewrite Hlen. reflexivity.
    + rewrite (results_of_columns func g (c :: cols) Hfun).
      cbn [bind map is_sequence items].
      rewrite <- (map_cons (fun c => (fst c, Seq (g (snd c))))).
      rewrite (frame_columns_uniform g).
      * reflexivity.
      * inversion Hlen as [|c' cs Hgc _]; subst. rewrite Hgc. exact Hlen.
Qed.

Lemma table_apply_same_shape_witness :
  table_apply sample_table (fun v => Return v) None = Return sample_table.
Proof.
  apply (table_apply_same_shape sample_table (fun v => Return v) (fun col => col) 3).
  - repeat constructor.
  - repeat constructor.
Defined.

End TableApplyShape.

Section MinimizeOptions.
Import Minimize.
Local Open Scope Q_scope.

Variable optimize_minimize : optimizer.

Lemma get_None (key : string) (vargs : kwargs) :
  get key vargs = None <-> has_key key vargs = false.
Proof.
  unfold get, has_key. induction vargs as [|kv vargs IH]; simpl.
  - split; reflexivity.
  - destruct (String.eqb key (fst kv)); simpl; [split; discriminate | exact IH].
Qed.

Lemma get_app (key : string) (vargs more : kwargs) :
  get key (vargs ++ more)%list
  = match get key vargs with Some v => Some v | None => get key more end.
Proof.
  unfold get. induction vargs as [|kv vargs IH]; simpl; [reflexivity|].
  destruct (String.eqb key (fst kv)); simpl; [reflexivity | exact IH].
Qed.

(** X17: the options the caller passes reach the optimizer unchanged: the
    method is set to Powell only when [smooth] is false and the caller
    gave no method; a method the caller gave, and every other option, keeps
    its value, and with [smooth=True] the options are passed as they are. *)
Theorem options_are_forwarded (smooth : bool) (vargs : kwargs) :
  (forall key v, get key vargs = Some v ->
                 get key (default_method smooth vargs) = Some v) /\
  (forall key, key <> "method" ->
               get key (default_method smooth vargs) = get key vargs) /\
  (smooth = false -> get "method" vargs = None ->
   get "method" (default_method smooth vargs) = Some (OStr "Powell")) /\
  (smooth = true -> default_method smooth vargs = vargs).
Proof.
  unfold default_method, set_new.
  split; [|split; [|split]].
  - intros key v H. destruct (_ && _); [|exact H].
    rewrite get_app, H. reflexivity.
  - intros key Hk. destruct (_ && _); [|reflexivity].
    rewrite get_app. destruct (get key vargs); [reflexivity|].
    unfold get. simpl.
    destruct (String.eqb key "method") eqn:E; [|reflexivity].
    apply String.eqb_eq in E. contradiction.
  - intros -> H. apply get_None in H as H'. rewrite H'. simpl.
    rewrite get_app, H. reflexivity.
  - intros ->. reflexivity.
Qed.

Lemma options_are_forwarded_witness :
  get "method" (default_method false [("tol", ONum 0.001)])
  = Some (OStr "Powell") /\
  get "method" (default_method false [("method", OStr "BFGS")])
  = Some (OStr "BFGS").
Proof.
  split.
  - destruct (options_are_forwarded false [("tol", ONum 0.001)])
      as [_ [_ [H _]]].
    apply H; reflexivity.
  - destruct (options_are_forwarded false [("method", OStr "BFGS")])
      as [H _].
    apply H. reflexivity.
Defined.

(** X18: what the docstring promises of the result: without [start] and
    with [array] false, a call that returns gives a number for a function
    of one named parameter and the optimizer's array for a function of two
    or more. *)
Theorem result_by_arity (f : function) (smooth : bool)
    (log : option (OptimizeResult -> result unit)) (vargs : kwargs)
    (v : minimum) :
  minimize optimize_minimize f None smooth log false vargs = Return v ->
  (co_argcount f = 1%nat -> exists q, v = Item q) /\
  ((2 <= co_argcount f)%nat ->
   exists res,
     optimize_minimize (objective f false) (repeat 0 (co_argcount f))
                       (default_method smooth vargs) = Return res /\
     v = Array (x res)).
Proof.
  rewrite minimize_unfold. intros H.
  apply bind_Return in H. destruct H as [start [Hs H]].
  apply bind_Return in H. destruct H as [res [Hres H]].
  apply bind_Return in H. destruct H as [u [_ H]].
  unfold starting_point in Hs. simpl in Hs.
  destruct (0 <? co_argcount f)%nat; simpl in Hs; [|discriminate].
  injection Hs as <-. rewrite repeat_length in H.
  split.
  - intros E. rewrite E in H. simpl in H.
    apply bind_Return in H. destruct H as [q [_ H]].
    exists q. congruence.
  - intros E.
    destruct (co_argcount f =? 1)%nat eqn:E1; [apply Nat.eqb_eq in E1; lia|].
    exists res. split; [exact Hres | congruence].
Qed.

End MinimizeOptions.

Section MinimizeOptionsExamples.
Import Minimize.
Local Open Scope Q_scope.

Lemma result_by_arity_witness :
  (exists q, Item 0 = Item q) /\
  (exists res,
      stays_at_start (objective sum_of_squares false) [0; 0]
                     (default_method false []) = Return res /\
      Array [0; 0] = Array (x res)).
Proof.
  split.
  - apply (result_by_arity stays_at_start square_variadic false None [] (Item 0));
      reflexivity.
  - apply (result_by_arity stays_at_start sum_of_squares false None []
             (Array [0; 0])); [reflexivity | simpl; lia].
Defined.

End MinimizeOptionsExamples.
